(** * Particle ordering stage of [scripts/train_linformer.py]

    A shallow embedding of the part of the training driver that reorders the
    particles of every event before the array is handed to the model:
    the five scalar-key sorts of [main] (lines 165-184) and
    [sort_events_by_cluster] (lines 85-133).

    Floating-point numbers are kept abstract: the ordering code only compares
    keys and moves rows, so the development is stated over any carrier [F]
    with a comparison [flt] that is a strict weak order (no NaN).  NumPy, the
    Python built-ins and FastJet are modelled by what the script observes of
    them. *)

From Stdlib Require Import List ZArith Lia Bool Arith Permutation Sorted.
From Stdlib Require Ascii String DecimalString DecimalZ DecimalPos.
Import ListNotations.

Set Implicit Arguments.

(** ** Exceptions and fallible computations *)

(** The exceptions the modelled code can raise.  [FastJetError] stands for
    anything thrown by the clustering library. *)
Inductive exn : Type :=
| ValueError
| IndexError
| FastJetError.

Inductive result (A : Type) : Type :=
| Ok (a : A)
| Raise (e : exn).

Arguments Ok {A} a.
Arguments Raise {A} e.

Definition bind {A B : Type} (m : result A) (k : A -> result B) : result B :=
  match m with
  | Ok a => k a
  | Raise e => Raise e
  end.

Notation "x <- m ;; k" := (bind m (fun x => k))
  (at level 61, m at next level, right associativity).

Definition is_error {A : Type} (m : result A) : Prop :=
  exists e, m = Raise e.

(** [mapM f l] runs [f] on the elements of [l] from left to right and stops at
    the first exception. *)
Fixpoint mapM {A B : Type} (f : A -> result B) (l : list A) : result (list B) :=
  match l with
  | [] => Ok []
  | a :: l' => b <- f a ;; bs <- mapM f l' ;; Ok (b :: bs)
  end.

(** [for_each l body s]: a [for] loop over [l] threading the mutable state
    [s]; an exception leaves the loop. *)
Fixpoint for_each {A S : Type} (l : list A) (body : A -> S -> result S) (s : S)
  : result S :=
  match l with
  | [] => Ok s
  | a :: l' => s' <- body a s ;; for_each l' body s'
  end.

(** ** Floating-point interface *)

Class FloatOps (F : Type) : Type := {
  fzero : F;
  flt : F -> F -> bool;
  fadd : F -> F -> F;
  fmul : F -> F -> F;
  fsquare : F -> F;
  fsqrt : F -> F;
  fcos : F -> F;
  fsin : F -> F;
  fsinh : F -> F;
  fcosh : F -> F
}.

Definition fle {F : Type} {ops : FloatOps F} (a b : F) : bool := negb (flt b a).
Definition feq {F : Type} {ops : FloatOps F} (a b : F) : bool := fle a b && fle b a.

(** The comparison is a strict weak order: true of floats without NaN. *)
Class FloatOrder (F : Type) {ops : FloatOps F} : Prop := {
  fle_total : forall a b : F, fle a b = true \/ fle b a = true;
  fle_trans : forall a b c : F, fle a b = true -> fle b c = true -> fle a c = true
}.

(** ** Stable sorting, as [np.argsort] and [sorted] use it *)

Section StableSort.
Context {F : Type} {ops : FloatOps F}.
Variable A : Type.
Variable key : A -> F.

(** [a] goes in front of the first element whose key is not smaller. *)
Fixpoint insert_by (a : A) (l : list A) : list A :=
  match l with
  | [] => [a]
  | b :: l' => if flt (key b) (key a) then b :: insert_by a l' else a :: b :: l'
  end.

(** Ascending insertion sort; elements with equal keys keep their order. *)
Definition stable_sort_by (l : list A) : list A :=
  fold_right insert_by [] l.

(** Python's [sorted(l, key=key, reverse=reverse)]: a stable sort; with
    [reverse=True] the list is reversed, sorted ascending and reversed again,
    so equal keys still keep the order they had in [l]. *)
Definition sorted_by (reverse : bool) (l : list A) : list A :=
  if reverse then rev (stable_sort_by (rev l)) else stable_sort_by l.

(** The order a stable ascending sort produces: ascending by key, and [T]
    between elements whose keys compare equal. *)
Definition key_then (T : A -> A -> Prop) (a b : A) : Prop :=
  flt (key a) (key b) = true \/ (flt (key b) (key a) = false /\ T a b).

End StableSort.

(** ** Python built-ins *)

(** [range(start, stop, step)] as a list; the element count is computed the
    way CPython does, and a zero step is a [ValueError]. *)
Definition py_range (start stop step : Z) : result (list Z) :=
  if (step =? 0)%Z then Raise ValueError
  else
    let len :=
      if (0 <? step)%Z
      then (if (start <? stop)%Z then (stop - start - 1) / step + 1 else 0)%Z
      else (if (stop <? start)%Z then (start - stop - 1) / (- step) + 1 else 0)%Z in
    Ok (map (fun k => (start + Z.of_nat k * step)%Z) (seq 0 (Z.to_nat len))).

(** [range(n)] as a list: the slots [0 .. n-1]. *)
Definition slots (n : nat) : list Z := map Z.of_nat (seq 0 n).

(** A slice bound: negative bounds count from the end, then clamp. *)
Definition slice_bound (len : nat) (i : Z) : nat :=
  if (i <? 0)%Z then Z.to_nat (Z.max 0 (i + Z.of_nat len))
  else Nat.min (Z.to_nat i) len.

(** [l[start:stop]]. *)
Definition py_slice {A : Type} (l : list A) (start stop : Z) : list A :=
  let lo := slice_bound (length l) start in
  let hi := slice_bound (length l) stop in
  firstn (hi - lo) (skipn lo l).

(** [enumerate(l)]. *)
Definition enumerate {A : Type} (l : list A) : list (nat * A) :=
  combine (seq 0 (length l)) l.

(** An integer subscript into an axis of length [len]: negative subscripts
    wrap once, anything still outside is an [IndexError]. *)
Definition norm_index (len : nat) (i : Z) : result nat :=
  let j := if (i <? 0)%Z then (i + Z.of_nat len)%Z else i in
  if ((0 <=? j) && (j <? Z.of_nat len))%Z then Ok (Z.to_nat j)
  else Raise IndexError.

(** [l[j] = v] for an in-range position. *)
Fixpoint set_nth {A : Type} (j : nat) (v : A) (l : list A) : list A :=
  match l, j with
  | [], _ => []
  | _ :: l', O => v :: l'
  | a :: l', S j' => a :: set_nth j' v l'
  end.

(** Element-wise binary operation on two rows of equal length. *)
Definition zip_with {A B C : Type} (f : A -> B -> C) (l1 : list A) (l2 : list B)
  : list C :=
  map (fun ab => f (fst ab) (snd ab)) (combine l1 l2).

(** ** Arrays *)

(** A three-dimensional array of shape [(n_events, n_particles, feat_dim)];
    columns 0, 1, 2 of a particle row are pt, eta, phi. *)
Record ndarray (F : Type) : Type := {
  n_events : nat;
  n_particles : nat;
  feat_dim : nat;
  data : list (list (list F))
}.

Arguments n_events {F} _.
Arguments n_particles {F} _.
Arguments feat_dim {F} _.
Arguments data {F} _.

(** The nested lists have the declared shape. *)
Definition wf_event {F : Type} (n fd : nat) (ev : list (list F)) : Prop :=
  length ev = n /\ Forall (fun row => length row = fd) ev.

Definition wf {F : Type} (x : ndarray F) : Prop :=
  length (data x) = n_events x /\
  Forall (wf_event (n_particles x) (feat_dim x)) (data x).

(** The rows of [event_out] are the rows of [event_in], whole, taken along
    a rearrangement [p] of the slots [0 .. n-1]. *)
Definition rows_permuted {F : Type} (n : nat)
  (event_in event_out : list (list F)) : Prop :=
  exists p, Permutation p (seq 0 n) /\
            event_out = map (fun k => nth k event_in []) p.

Definition same_shape {F : Type} (x y : ndarray F) : Prop :=
  n_events y = n_events x /\ n_particles y = n_particles x /\
  feat_dim y = feat_dim x.

Section Numpy.
Context {F : Type} {ops : FloatOps F}.

(** [np.argsort(keys)] on one row: the indices [0..n-1] in ascending key
    order.  NumPy's default sort promises no order among equal keys, and
    what it leaves there depends on the build.  The model puts equal keys in
    index order, as the insertion sort of NumPy's portable code does on
    short rows.  No theorem about [main] below rests on that choice: they
    state what holds for every order of equal keys (see
    [any_argsort_reversed_descending] and [any_argsort_distinct]); only the
    examples that evaluate a row with equal keys do. *)
Definition argsort (keys : list F) : list nat :=
  stable_sort_by (fun i => nth i keys fzero) (seq 0 (length keys)).

(** [np.argsort(keys)[::-1]] on one row. *)
Definition argsort_desc (keys : list F) : list nat := rev (argsort keys).

(** Slot order of one row of keys: descending by key, and [T] between slots
    whose keys compare equal. *)
Definition desc_then (keys : list F) (T : nat -> nat -> Prop) (a b : nat) : Prop :=
  flt (nth b keys fzero) (nth a keys fzero) = true \/
  (flt (nth a keys fzero) (nth b keys fzero) = false /\ T a b).

(** No two slots of a row of keys compare equal. *)
Definition distinct_keys (keys : list F) : Prop :=
  forall i j, i < length keys -> j < length keys -> i <> j ->
    feq (nth i keys fzero) (nth j keys fzero) = false.

(** [x[:, :, c]]: one feature of every particle of every event. *)
Definition column (x : ndarray F) (c : nat) : result (list (list F)) :=
  if c <? feat_dim x
  then Ok (map (map (fun row => nth c row fzero)) (data x))
  else Raise IndexError.

(** [event[:, c]]. *)
Definition event_column (fd : nat) (event : list (list F)) (c : nat)
  : result (list F) :=
  if c <? fd then Ok (map (fun row => nth c row fzero) event)
  else Raise IndexError.

(** Row [i] of an event, as [take_along_axis] reads it. *)
Definition get_row (event : list (list F)) (i : nat) : result (list F) :=
  match nth_error event i with
  | Some r => Ok r
  | None => Raise IndexError
  end.

(** [np.take_along_axis(x, sort_idx[:, :, None], axis=1)]: the index is
    broadcast over the feature axis, so output row [k] of event [e] is the
    whole input row [sort_idx[e][k]]. *)
Definition take_along_axis (x : ndarray F) (sort_idx : list (list nat))
  : result (ndarray F) :=
  d <- mapM (fun ep => mapM (get_row (fst ep)) (snd ep))
            (combine (data x) sort_idx) ;;
  Ok {| n_events := n_events x; n_particles := n_particles x;
        feat_dim := feat_dim x; data := d |}.

(** [np.zeros_like(x)]. *)
Definition zeros_like (x : ndarray F) : ndarray F :=
  {| n_events := n_events x; n_particles := n_particles x;
     feat_dim := feat_dim x;
     data := repeat (repeat (repeat fzero (feat_dim x)) (n_particles x))
                    (n_events x) |}.

(** [event[sorted_indices]] with a Python list of integers. *)
Definition fancy_index (event : list (list F)) (idxs : list Z)
  : result (list (list F)) :=
  mapM (fun i => j <- norm_index (length event) i ;; get_row event j) idxs.

(** [sorted_x[k] = rows]: the right-hand side must have [n_particles] rows,
    or a single row that NumPy broadcasts; anything else is a [ValueError]. *)
Definition setitem (sorted_x : list (list (list F))) (n : nat) (k : Z)
  (rows : list (list F)) : result (list (list (list F))) :=
  j <- norm_index (length sorted_x) k ;;
  if length rows =? n then Ok (set_nth j rows sorted_x)
  else if length rows =? 1 then Ok (set_nth j (repeat (hd [] rows) n) sorted_x)
  else Raise ValueError.

End Numpy.

(** ** FastJet, as the script sees it *)

(** [fj.PseudoJet(px, py, pz, E)] with the user index attached to it. *)
Record PseudoJet (F : Type) : Type := {
  px : F;
  py : F;
  pz : F;
  E : F;
  user_index : Z
}.

Arguments px {F} _.
Arguments py {F} _.
Arguments pz {F} _.
Arguments E {F} _.
Arguments user_index {F} _.

(** A jet of [seq.inclusive_jets()]: what [jet.perp()] and
    [jet.constituents()] return for it. *)
Record Jet (F : Type) : Type := {
  perp : F;
  constituents : list (PseudoJet F)
}.

Arguments perp {F} _.
Arguments constituents {F} _.

(** The clustering library is external.  [JetDefinition R] stands for
    [fj.JetDefinition(fj.antikt_algorithm, R)] and [inclusive_jets ps jd] for
    [fj.ClusterSequence(ps, jd).inclusive_jets()]; either may throw. *)
Class FastJet (F : Type) : Type := {
  jet_definition : Type;
  JetDefinition : F -> result jet_definition;
  inclusive_jets : list (PseudoJet F) -> jet_definition -> result (list (Jet F))
}.

(** The library's contract for one clustering call: the constituents of the
    returned jets are the input particles, each in exactly one jet. *)
Definition partitions {F : Type} (ps : list (PseudoJet F)) (jets : list (Jet F))
  : Prop :=
  Permutation (flat_map (fun jet => map user_index (constituents jet)) jets)
              (map user_index ps).

(** ** The ordering code of the script *)

(** [--sort_by] choices. *)
Inductive sort_by_choice : Type :=
| by_pt
| by_eta
| by_phi
| by_delta_R
| by_kt
| by_cluster.

Definition sort_by_choice_eq_dec (a b : sort_by_choice) : {a = b} + {a <> b}.
Proof. decide equality. Defined.

(** The options of [parse_args] that reach the ordering stage. *)
Record Args (F : Type) : Type := {
  num_particles : Z;
  sort_by : sort_by_choice;
  cluster_R : F;
  cluster_batch_size : Z
}.

Arguments num_particles {F} _.
Arguments sort_by {F} _.
Arguments cluster_R {F} _.
Arguments cluster_batch_size {F} _.

Section Ordering.
Context {F : Type} {ops : FloatOps F} {fastjet : FastJet F}.

(** Lines 98-109: the four-vectors of one event, tagged with their slot. *)
Definition build_pseudojets (n_particles : nat) (pts etas phis : list F)
  : list (PseudoJet F) :=
  let px := zip_with fmul pts (map fcos phis) in
  let py := zip_with fmul pts (map fsin phis) in
  let pz := zip_with fmul pts (map fsinh etas) in
  let E := zip_with fmul pts (map fcosh etas) in
  map (fun j => {| px := nth j px fzero; py := nth j py fzero;
                   pz := nth j pz fzero; E := nth j E fzero;
                   user_index := Z.of_nat j |})
      (seq 0 n_particles).

(** Lines 123-127: the user indices of the jets' constituents, jet by jet. *)
Definition jet_indices (jets : list (Jet F)) : list Z :=
  flat_map (fun jet => map user_index (constituents jet)) jets.

(** Line 129: [idx not in sorted_indices]. *)
Definition not_in (sorted_indices : list Z) (idx : Z) : bool :=
  negb (existsb (Z.eqb idx) sorted_indices).

(** Lines 117-130: jets by descending [perp], their constituents in the
    order the jet lists them, then the slots no jet mentioned. *)
Definition assemble_indices (n_particles : nat) (jets : list (Jet F)) : list Z :=
  let jets := sorted_by perp true jets in
  let sorted_indices := jet_indices jets in
  let remaining := filter (not_in sorted_indices) (slots n_particles) in
  sorted_indices ++ remaining.

(** Lines 98-109 for one event: the particles handed to the clusterer. *)
Definition event_pseudojets (n_particles feat_dim : nat) (event : list (list F))
  : result (list (PseudoJet F)) :=
  pts <- event_column feat_dim event 0 ;;
  etas <- event_column feat_dim event 1 ;;
  phis <- event_column feat_dim event 2 ;;
  Ok (build_pseudojets n_particles pts etas phis).

(** Lines 98-130 for one event: its index sequence. *)
Definition event_indices (jet_def : jet_definition) (n_particles feat_dim : nat)
  (event : list (list F)) : result (list Z) :=
  ps <- event_pseudojets n_particles feat_dim event ;;
  jets <- inclusive_jets ps jet_def ;;
  Ok (assemble_indices n_particles jets).

(** Lines 98-132, right-hand side: the rows [event[sorted_indices]]. *)
Definition reorder_event (jet_def : jet_definition) (n_particles feat_dim : nat)
  (event : list (list F)) : result (list (list F)) :=
  sorted_indices <- event_indices jet_def n_particles feat_dim event ;;
  fancy_index event sorted_indices.

(** The rows line 132 leaves in the output slot of one event: the shape
    check of the assignment applied to [reorder_event]. *)
Definition event_write (jet_def : jet_definition) (n_particles feat_dim : nat)
  (event : list (list F)) : result (list (list F)) :=
  rows <- reorder_event jet_def n_particles feat_dim event ;;
  if length rows =? n_particles then Ok rows
  else if length rows =? 1 then Ok (repeat (hd [] rows) n_particles)
  else Raise ValueError.

(** Line 132 for one pair (output slot, event): compute the rows and store
    them. *)
Definition write_event (jet_def : jet_definition) (n_particles feat_dim : nat)
  (slot_event : Z * list (list F)) (sorted_x : list (list (list F)))
  : result (list (list (list F))) :=
  rows <- reorder_event jet_def n_particles feat_dim (snd slot_event) ;;
  setitem sorted_x n_particles (fst slot_event) rows.

(** Lines 94-97: the pairs (output slot [start + i], [event]) the two loops
    go through, in order. *)
Definition chunk_visits (x : ndarray F) (batch_size : Z)
  : result (list (Z * list (list F))) :=
  starts <- py_range 0 (Z.of_nat (n_events x)) batch_size ;;
  Ok (flat_map
        (fun start =>
           let stop := Z.min (start + batch_size) (Z.of_nat (n_events x)) in
           let batch := py_slice (data x) start stop in
           map (fun ie => ((start + Z.of_nat (fst ie))%Z, snd ie))
               (enumerate batch))
        starts).

(** [sort_events_by_cluster(x, R, batch_size)], lines 85-133. *)
Definition sort_events_by_cluster (x : ndarray F) (R : F) (batch_size : Z)
  : result (ndarray F) :=
  let n_events := n_events x in
  let n_particles := n_particles x in
  let feat_dim := feat_dim x in
  let sorted_x := data (zeros_like x) in
  jet_def <- JetDefinition R ;;
  starts <- py_range 0 (Z.of_nat n_events) batch_size ;;
  sorted_x <-
    for_each starts
      (fun start sorted_x =>
         let stop := Z.min (start + batch_size) (Z.of_nat n_events) in
         let batch := py_slice (data x) start stop in
         for_each (enumerate batch)
           (fun ie sorted_x =>
              rows <- reorder_event jet_def n_particles feat_dim (snd ie) ;;
              setitem sorted_x n_particles (start + Z.of_nat (fst ie)) rows)
           sorted_x)
      sorted_x ;;
  Ok {| n_events := n_events; n_particles := n_particles;
        feat_dim := feat_dim; data := sorted_x |}.

(** The key array of a scalar sort (lines 166, 170, 174, 178, 182). *)
Definition delta_R_key (etas phis : list (list F)) : list (list F) :=
  zip_with (fun e p => map fsqrt (zip_with fadd (map fsquare e) (map fsquare p)))
           etas phis.

(** [np.argsort(key, axis=1)[:, ::-1]]. *)
Definition sort_idx (key : list (list F)) : list (list nat) :=
  map argsort_desc key.

(** Lines 164-190 of [main]: the array handed to the training code, given
    the parsed options and the array [x] that [np.load] returned.  The
    [else] branch is unreachable: argparse restricts [--sort_by] to the six
    choices. *)
Definition main (args : Args F) (x : ndarray F) : result (ndarray F) :=
  match sort_by args with
  | by_pt =>
      key <- column x 0 ;;
      let sort_idx := sort_idx key in
      take_along_axis x sort_idx
  | by_eta =>
      key <- column x 1 ;;
      let sort_idx := sort_idx key in
      take_along_axis x sort_idx
  | by_phi =>
      key <- column x 2 ;;
      let sort_idx := sort_idx key in
      take_along_axis x sort_idx
  | by_delta_R =>
      key <- (etas <- column x 1 ;; phis <- column x 2 ;;
              Ok (delta_R_key etas phis)) ;;
      let sort_idx := sort_idx key in
      take_along_axis x sort_idx
  | by_kt =>
      key <- (pts <- column x 0 ;; etas <- column x 1 ;; phis <- column x 2 ;;
              Ok (zip_with (zip_with fmul) pts (delta_R_key etas phis))) ;;
      let sort_idx := sort_idx key in
      take_along_axis x sort_idx
  | by_cluster =>
      sort_events_by_cluster x (cluster_R args) (cluster_batch_size args)
  end.

(** The key array [main] computes for a choice; the cluster branch has none. *)
Definition sort_key (choice : sort_by_choice) (x : ndarray F)
  : option (result (list (list F))) :=
  match choice with
  | by_pt => Some (column x 0)
  | by_eta => Some (column x 1)
  | by_phi => Some (column x 2)
  | by_delta_R =>
      Some (etas <- column x 1 ;; phis <- column x 2 ;;
            Ok (delta_R_key etas phis))
  | by_kt =>
      Some (pts <- column x 0 ;; etas <- column x 1 ;; phis <- column x 2 ;;
            Ok (zip_with (zip_with fmul) pts (delta_R_key etas phis)))
  | by_cluster => None
  end.

(** The index array of a scalar branch. *)
Definition main_sort_idx (choice : sort_by_choice) (x : ndarray F)
  : option (result (list (list nat))) :=
  match sort_key choice x with
  | Some k => Some (key <- k ;; Ok (sort_idx key))
  | None => None
  end.

(** The key of one particle row, for the scalar choices (the cluster
    choice computes no key; it is given the pt here and never used). *)
Definition row_key (choice : sort_by_choice) (row : list F) : F :=
  let pt := nth 0 row fzero in
  let eta := nth 1 row fzero in
  let phi := nth 2 row fzero in
  match choice with
  | by_pt | by_cluster => pt
  | by_eta => eta
  | by_phi => phi
  | by_delta_R => fsqrt (fadd (fsquare eta) (fsquare phi))
  | by_kt => fmul pt (fsqrt (fadd (fsquare eta) (fsquare phi)))
  end.

(** What a scalar branch puts in place of one event: its rows taken in
    the order [argsort_desc] of their keys. *)
Definition sort_event (row_key : list F -> F) (event : list (list F))
  : list (list F) :=
  map (fun i => nth i event []) (argsort_desc (map row_key event)).

(** How many leading columns a scalar choice reads. *)
Definition columns_read (choice : sort_by_choice) : nat :=
  match choice with
  | by_pt => 1
  | by_eta => 2
  | _ => 3
  end.

(** The same options with another [--cluster_batch_size]. *)
Definition with_cluster_batch_size (b : Z) (args : Args F) : Args F :=
  {| num_particles := num_particles args; sort_by := sort_by args;
     cluster_R := cluster_R args; cluster_batch_size := b |}.

(** The same options with another [--num_particles]. *)
Definition with_num_particles (n : Z) (args : Args F) : Args F :=
  {| num_particles := n; sort_by := sort_by args;
     cluster_R := cluster_R args;
     cluster_batch_size := cluster_batch_size args |}.

(** The clusterer accepts [R] and honours its contract on every event of
    [x]. *)
Definition clusterer_total (R : F) (x : ndarray F) : Prop :=
  exists jet_def, JetDefinition R = Ok jet_def /\
    forall event ps, In event (data x) ->
      event_pseudojets (n_particles x) (feat_dim x) event = Ok ps ->
      exists jets, inclusive_jets ps jet_def = Ok jets /\ partitions ps jets.

End Ordering.

(** ** Concrete instances used in examples *)

(** Integer-valued samples: small integers are floats and compare as such.
    The square root is rounded down; the trigonometric functions only feed
    the clusterer and are left trivial. *)
#[export] Instance Z_float : FloatOps Z := {|
  fzero := 0%Z;
  flt := Z.ltb;
  fadd := Z.add;
  fmul := Z.mul;
  fsquare := fun a => (a * a)%Z;
  fsqrt := Z.sqrt;
  fcos := fun _ => 1%Z;
  fsin := fun _ => 0%Z;
  fsinh := fun a => a;
  fcosh := fun _ => 1%Z
|}.

(** A clusterer that accepts positive radii and makes every particle a jet
    of its own, listed in slot order, with [perp = |px|]. *)
Definition singleton_jets : FastJet Z := {|
  jet_definition := Z;
  JetDefinition := fun R => if (0 <? R)%Z then Ok R else Raise FastJetError;
  inclusive_jets := fun ps _ =>
    Ok (map (fun p => {| perp := Z.abs (px p); constituents := [p] |}) ps)
|}.

(** A misbehaving clusterer: one jet that lists every particle twice. *)
Definition doubling_jets : FastJet Z := {|
  jet_definition := Z;
  JetDefinition := fun R => Ok R;
  inclusive_jets := fun ps _ =>
    Ok [{| perp := 0%Z; constituents := ps ++ ps |}]
|}.

(** Options for the samples: three declared particles, radius 1. *)
Definition sample_args (choice : sort_by_choice) (batch_size : Z) : Args Z :=
  {| num_particles := 3; sort_by := choice; cluster_R := 1%Z;
     cluster_batch_size := batch_size |}.

(** A particle at rest carrying slot [j]. *)
Definition slot_particle (j : Z) : PseudoJet Z :=
  {| px := 0%Z; py := 0%Z; pz := 0%Z; E := 0%Z; user_index := j |}.

(** Two single-particle jets of equal [perp], the one holding slot 1 listed
    first. *)
Definition tied_jets : list (Jet Z) :=
  [ {| perp := 1%Z; constituents := [slot_particle 1] |};
    {| perp := 1%Z; constituents := [slot_particle 0] |} ].

(** The slot of a jet's first constituent. *)
Definition first_index {F : Type} (jet : Jet F) : Z :=
  hd 0%Z (map user_index (constituents jet)).

(** One event of two particles with the same pt; the third column tells
    them apart. *)
Definition tied_pair : ndarray Z :=
  {| n_events := 1; n_particles := 2; feat_dim := 3;
     data := [[[1; 0; 7]; [1; 0; 8]]]%Z |}.

(** Three events of three particles with distinct pt, eta and phi. *)
Definition three_events : ndarray Z :=
  {| n_events := 3; n_particles := 3; feat_dim := 4;
     data := [[[5; 1; 2; 10]; [2; 3; 1; 11]; [8; 2; 3; 12]];
              [[1; 2; 3; 13]; [4; 1; 2; 14]; [3; 3; 1; 15]];
              [[7; 3; 1; 16]; [6; 2; 3; 17]; [9; 1; 2; 18]]]%Z |}.

(** [three_events] with every event in descending pt order. *)
Definition three_events_by_pt : ndarray Z :=
  {| n_events := 3; n_particles := 3; feat_dim := 4;
     data := [[[8; 2; 3; 12]; [5; 1; 2; 10]; [2; 3; 1; 11]];
              [[4; 1; 2; 14]; [3; 3; 1; 15]; [1; 2; 3; 13]];
              [[9; 1; 2; 18]; [7; 3; 1; 16]; [6; 2; 3; 17]]]%Z |}.

(** [tied_pair] with its two rows exchanged. *)
Definition tied_pair_swapped : ndarray Z :=
  {| n_events := 1; n_particles := 2; feat_dim := 3;
     data := [[[1; 0; 8]; [1; 0; 7]]]%Z |}.

(** ** The paths [main] builds (lines 140 and 152-159) *)

Module Paths.
Import Ascii String.
#[local] Open Scope string_scope.

(** [str(n)] for a Python integer: decimal digits, ["-"] in front of a
    negative number, ["0"] for zero. *)
Definition str_int (n : Z) : string :=
  DecimalString.NilZero.string_of_int (Z.to_int n).

(** [b.startswith("/")]. *)
Definition starts_with_sep (b : string) : bool :=
  match b with
  | String c _ => Ascii.eqb c "/"
  | EmptyString => false
  end.

(** [path.endswith("/")]. *)
Fixpoint ends_with_sep (path : string) : bool :=
  match path with
  | EmptyString => false
  | String c EmptyString => Ascii.eqb c "/"
  | String _ rest => ends_with_sep rest
  end.

(** One round of the loop of [posixpath.join]: an absolute component
    replaces the path, otherwise it is appended, with a ["/"] in between
    unless the path is empty or already ends in one. *)
Definition join_step (path b : string) : string :=
  if starts_with_sep b then b
  else if String.eqb path "" || ends_with_sep path then path ++ b
  else path ++ "/" ++ b.

(** [os.path.join(a, *p)] on a POSIX system. *)
Definition path_join (a : string) (p : list string) : string :=
  fold_left join_step p a.

(** The string [args.sort_by] holds for each choice. *)
Definition sort_by_name (choice : sort_by_choice) : string :=
  match choice with
  | by_pt => "pt"
  | by_eta => "eta"
  | by_phi => "phi"
  | by_delta_R => "delta_R"
  | by_kt => "kt"
  | by_cluster => "cluster"
  end.

(** Line 140: [os.path.join(args.save_dir, str(args.num_particles),
    args.sort_by)]. *)
Definition save_dir (args_save_dir : string) (num_particles : Z)
  (choice : sort_by_choice) : string :=
  path_join args_save_dir [str_int num_particles; sort_by_name choice].

(** Lines 152-155. *)
Definition x_path (data_dir : string) (num_particles : Z) : string :=
  path_join data_dir
    ["x_train_robust_" ++ str_int num_particles ++ "const_ptetaphi.npy"].

(** Lines 156-159. *)
Definition y_path (data_dir : string) (num_particles : Z) : string :=
  path_join data_dir
    ["y_train_robust_" ++ str_int num_particles ++ "const_ptetaphi.npy"].

(** The characters [str] of an integer is made of. *)
Definition is_int_char (c : ascii) : bool :=
  Ascii.eqb c "-" || (Nat.leb 48 (nat_of_ascii c) && Nat.leb (nat_of_ascii c) 57).

Fixpoint all_int_chars (s : string) : bool :=
  match s with
  | EmptyString => true
  | String c rest => is_int_char c && all_int_chars rest
  end.

End Paths.

(** Lines 94-96: the batches [x[start:end]] the outer loop of
    [sort_events_by_cluster] takes, in order. *)
Definition chunk_batches {F : Type} (x : ndarray F) (batch_size : Z)
  : result (list (list (list (list F)))) :=
  starts <- py_range 0 (Z.of_nat (n_events x)) batch_size ;;
  Ok (map (fun start =>
             let stop := Z.min (start + batch_size) (Z.of_nat (n_events x)) in
             py_slice (data x) start stop)
          starts).

(** A clusterer that finds no jets at all. *)
Definition no_jets : FastJet Z := {|
  jet_definition := Z;
  JetDefinition := fun R => Ok R;
  inclusive_jets := fun _ _ => Ok []
|}.

(** A clusterer that behaves like [singleton_jets] unless the first
    particle has px above 6, and then lists every particle twice. *)
Definition fussy_jets : FastJet Z := {|
  jet_definition := Z;
  JetDefinition := fun R => Ok R;
  inclusive_jets := fun ps _ =>
    if (6 <? px (hd (slot_particle 0) ps))%Z
    then Ok [{| perp := 0%Z; constituents := ps ++ ps |}]
    else Ok (map (fun p => {| perp := Z.abs (px p); constituents := [p] |}) ps)
|}.

(** One event of two particles that only have the pt and eta columns. *)
Definition two_columns : ndarray Z :=
  {| n_events := 1; n_particles := 2; feat_dim := 2;
     data := [[[3; 1]; [4; 2]]]%Z |}.

(** The array of shape [(len(d), n, fd)] holding the events [d]. *)
Definition array_of {F : Type} (n fd : nat) (d : list (list (list F)))
  : ndarray F :=
  {| n_events := length d; n_particles := n; feat_dim := fd; data := d |}.

(** * Properties *)

(** ** Fallible computations *)

Lemma bind_ok_inv {A B : Type} (m : result A) (k : A -> result B) (b : B) :
  bind m k = Ok b -> exists a, m = Ok a /\ k a = Ok b.
Proof.
  destruct m as [a|e]; simpl; intros Hk; [eauto | discriminate].
Qed.

Lemma mapM_ok_map {A B : Type} (f : A -> result B) (g : A -> B) (l : list A) :
  (forall a, In a l -> f a = Ok (g a)) -> mapM f l = Ok (map g l).
Proof.
  induction l as [|a l IH]; simpl; intros Hf; [reflexivity|].
  rewrite (Hf a (or_introl eq_refl)); simpl.
  rewrite IH by (intros; apply Hf; now right).
  reflexivity.
Qed.

Lemma mapM_ok_Forall2 {A B : Type} (f : A -> result B) (l : list A) (bs : list B) :
  mapM f l = Ok bs -> Forall2 (fun a b => f a = Ok b) l bs.
Proof.
  revert bs; induction l as [|a l IH]; simpl; intros bs Hm.
  - injection Hm as <-. constructor.
  - apply bind_ok_inv in Hm as (b & Hb & Hm).
    apply bind_ok_inv in Hm as (bs' & Hbs & Hm).
    injection Hm as <-. constructor; auto.
Qed.

Lemma mapM_raise {A B : Type} (f : A -> result B) (l : list A) (a : A) :
  In a l -> is_error (f a) -> is_error (mapM f l).
Proof.
  induction l as [|b l IH]; simpl; intros Hin Hf; [contradiction|].
  destruct (f b) as [vb|e] eqn:Eb; simpl; [|now exists e].
  destruct Hin as [->|Hin].
  - destruct Hf as [e He]. congruence.
  - destruct (IH Hin Hf) as [e ->]. simpl. now exists e.
Qed.

Lemma for_each_app {A S : Type} (l1 l2 : list A) (body : A -> S -> result S) (s : S) :
  for_each (l1 ++ l2) body s = s' <- for_each l1 body s ;; for_each l2 body s'.
Proof.
  revert s; induction l1 as [|a l1 IH]; simpl; intros s; [reflexivity|].
  destruct (body a s); simpl; auto.
Qed.

(** ** Sorted lists *)

Lemma StronglySorted_app_intro {A : Type} (R : A -> A -> Prop) (l1 l2 : list A) :
  StronglySorted R l1 -> StronglySorted R l2 ->
  (forall a b, In a l1 -> In b l2 -> R a b) ->
  StronglySorted R (l1 ++ l2).
Proof.
  induction l1 as [|a l1 IH]; simpl; intros H1 H2 H12; [assumption|].
  apply StronglySorted_inv in H1 as [H1 Ha].
  constructor.
  - apply IH; auto.
  - apply Forall_app; split; [assumption|].
    apply Forall_forall; intros b Hb. apply H12; auto.
Qed.

Lemma StronglySorted_rev {A : Type} (R : A -> A -> Prop) (l : list A) :
  StronglySorted R l -> StronglySorted (fun a b => R b a) (rev l).
Proof.
  induction 1 as [|a l Hs IH Ha]; simpl; [constructor|].
  apply StronglySorted_app_intro; auto.
  - repeat constructor.
  - intros b c Hb [<-|[]]. rewrite Forall_forall in Ha.
    apply Ha. now apply in_rev.
Qed.

Lemma StronglySorted_weaken {A : Type} (R R' : A -> A -> Prop) (l : list A) :
  (forall a b, In a l -> In b l -> R a b -> R' a b) ->
  StronglySorted R l -> StronglySorted R' l.
Proof.
  intros HR Hs; induction Hs as [|a l Hs IH Ha]; constructor.
  - apply IH. intros; apply HR; simpl; auto.
  - rewrite Forall_forall in *. intros b Hb. apply HR; simpl; auto.
Qed.

Lemma StronglySorted_seq (s n : nat) : StronglySorted lt (seq s n).
Proof.
  revert s; induction n as [|n IH]; simpl; intros s; constructor; auto.
  apply Forall_forall; intros b Hb. apply in_seq in Hb. lia.
Qed.

(** Two strongly sorted arrangements of the same elements under an
    asymmetric relation coincide. *)
Lemma sorted_perm_unique (R : nat -> nat -> Prop) (l1 l2 : list nat) :
  (forall a b, R a b -> R b a -> False) ->
  StronglySorted R l1 -> StronglySorted R l2 -> Permutation l1 l2 -> l1 = l2.
Proof.
  intros Hasym H1; revert l2.
  induction H1 as [|a l1 H1 IH Ha]; intros l2 H2 Hp.
  - apply Permutation_nil in Hp. now subst.
  - destruct l2 as [|b l2].
    { apply Permutation_sym, Permutation_nil in Hp. discriminate. }
    apply StronglySorted_inv in H2 as [H2 Hb].
    rewrite Forall_forall in Ha, Hb.
    assert (a = b) as <-.
    { destruct (Nat.eq_dec a b) as [|Hne]; [assumption|exfalso].
      assert (In a (b :: l2)) as [?|Ha2]
        by (eapply Permutation_in; [exact Hp|now left]); [congruence|].
      assert (In b (a :: l1)) as [?|Hb1]
        by (eapply Permutation_in; [apply Permutation_sym; exact Hp|now left]);
        [congruence|].
      exact (Hasym a b (Ha b Hb1) (Hb a Ha2)). }
    f_equal. apply IH; [assumption|].
    eapply Permutation_cons_inv; exact Hp.
Qed.

(** ** The stable sort *)

Section StableSortFacts.
Context {F : Type} {ops : FloatOps F} {ord : FloatOrder (F := F)}.
Variable A : Type.
Variable key : A -> F.

Lemma fle_refl (a : F) : fle a a = true.
Proof. destruct (fle_total a a); assumption. Qed.

Lemma flt_fle (a b : F) : flt a b = true -> fle a b = true.
Proof.
  intros Hlt. destruct (fle_total a b) as [|Hba]; [assumption|].
  unfold fle in Hba. rewrite Hlt in Hba. discriminate.
Qed.

Lemma insert_by_perm (a : A) (l : list A) :
  Permutation (insert_by key a l) (a :: l).
Proof.
  induction l as [|b l IH]; simpl; [reflexivity|].
  destruct (flt (key b) (key a)); [|reflexivity].
  rewrite IH. apply perm_swap.
Qed.

Lemma stable_sort_by_perm (l : list A) : Permutation (stable_sort_by key l) l.
Proof.
  induction l as [|a l IH]; simpl; [reflexivity|].
  rewrite insert_by_perm. now constructor.
Qed.

Lemma key_then_fle (T : A -> A -> Prop) (a b : A) :
  key_then key T a b -> fle (key a) (key b) = true.
Proof.
  intros [Hlt|[Hnlt _]]; [now apply flt_fle|].
  unfold fle. now rewrite Hnlt.
Qed.

Lemma insert_by_sorted (T : A -> A -> Prop) (a : A) (l : list A) :
  StronglySorted (key_then key T) l -> Forall (T a) l ->
  StronglySorted (key_then key T) (insert_by key a l).
Proof.
  induction l as [|b l IH]; simpl; intros Hs HT.
  - repeat constructor.
  - apply StronglySorted_inv in Hs as [Hs Hb].
    pose proof (Forall_inv HT) as HTb. pose proof (Forall_inv_tail HT) as HTl.
    destruct (flt (key b) (key a)) eqn:Eba.
    + constructor; [auto|].
      eapply Permutation_Forall; [apply Permutation_sym, insert_by_perm|].
      constructor; [now left | assumption].
    + constructor; [now constructor|].
      constructor; [right; auto|].
      rewrite Forall_forall in *. intros c Hc. right. split; [|auto].
      assert (fle (key a) (key c) = true) as Hac.
      { apply fle_trans with (key b).
        - unfold fle. now rewrite Eba.
        - eapply key_then_fle; eauto. }
      unfold fle in Hac. now apply negb_true_iff in Hac.
Qed.

Lemma stable_sort_by_sorted (T : A -> A -> Prop) (l : list A) :
  StronglySorted T l -> StronglySorted (key_then key T) (stable_sort_by key l).
Proof.
  induction 1 as [|a l Hs IH Ha]; simpl; [constructor|].
  apply insert_by_sorted; [assumption|].
  eapply Permutation_Forall; [apply Permutation_sym, stable_sort_by_perm|].
  assumption.
Qed.

(** Stability: the elements of one key class come out in the order they
    went in. *)
Lemma insert_by_filter (k : F) (a : A) (l : list A) :
  filter (fun b => feq (key b) k) (insert_by key a l) =
  filter (fun b => feq (key b) k) (a :: l).
Proof.
  induction l as [|b l IH]; [reflexivity|].
  simpl insert_by. destruct (flt (key b) (key a)) eqn:Eba; [|reflexivity].
  simpl in *. rewrite IH.
  destruct (feq (key a) k) eqn:Ea; [|reflexivity].
  destruct (feq (key b) k) eqn:Eb; [exfalso|reflexivity].
  unfold feq in Ea, Eb.
  apply andb_true_iff in Ea as [Eak Eka], Eb as [Ebk Ekb].
  pose proof (fle_trans _ _ _ Eak Ekb) as Hab.
  unfold fle in Hab. rewrite Eba in Hab. discriminate.
Qed.

Lemma stable_sort_by_filter (k : F) (l : list A) :
  filter (fun b => feq (key b) k) (stable_sort_by key l) =
  filter (fun b => feq (key b) k) l.
Proof.
  induction l as [|a l IH]; [reflexivity|].
  simpl stable_sort_by. rewrite insert_by_filter. simpl. now rewrite IH.
Qed.

Lemma sorted_by_perm (reverse : bool) (l : list A) :
  Permutation (sorted_by key reverse l) l.
Proof.
  destruct reverse; simpl; [|apply stable_sort_by_perm].
  rewrite <- Permutation_rev, stable_sort_by_perm. apply Permutation_sym, Permutation_rev.
Qed.

Lemma sorted_by_reverse_filter (k : F) (l : list A) :
  filter (fun b => feq (key b) k) (sorted_by key true l) =
  filter (fun b => feq (key b) k) l.
Proof.
  simpl. rewrite filter_rev, stable_sort_by_filter, filter_rev.
  apply rev_involutive.
Qed.

Lemma sorted_by_reverse_sorted (l : list A) :
  StronglySorted (fun a b => fle (key b) (key a) = true) (sorted_by key true l).
Proof.
  simpl. apply StronglySorted_rev.
  apply StronglySorted_weaken with (R := key_then key (fun _ _ => True)).
  - intros a b _ _. apply key_then_fle.
  - apply stable_sort_by_sorted.
    induction (rev l); constructor; auto.
    apply Forall_forall; auto.
Qed.

End StableSortFacts.

(** ** [np.argsort] and the scalar branches of [main] *)

Section ScalarFacts.
Context {F : Type} {ops : FloatOps F} {fastjet : FastJet F}.

Lemma argsort_perm (keys : list F) :
  Permutation (argsort keys) (seq 0 (length keys)).
Proof. apply stable_sort_by_perm. Qed.

Lemma argsort_desc_perm (keys : list F) :
  Permutation (argsort_desc keys) (seq 0 (length keys)).
Proof.
  unfold argsort_desc. rewrite <- Permutation_rev. apply argsort_perm.
Qed.

Lemma argsort_desc_in_range (keys : list F) :
  Forall (fun i => i < length keys) (argsort_desc keys).
Proof.
  apply Forall_forall; intros i Hi.
  eapply Permutation_in in Hi; [|apply argsort_desc_perm].
  apply in_seq in Hi. lia.
Qed.

Lemma zip_with_map {A B C D : Type} (f : B -> C -> D) (g1 : A -> B) (g2 : A -> C)
  (l : list A) :
  zip_with f (map g1 l) (map g2 l) = map (fun a => f (g1 a) (g2 a)) l.
Proof.
  unfold zip_with. induction l as [|a l IH]; simpl; [reflexivity|].
  now rewrite IH.
Qed.

Lemma column_eq (x : ndarray F) (c : nat) :
  column x c =
  if S c <=? feat_dim x
  then Ok (map (map (fun row => nth c row fzero)) (data x))
  else Raise IndexError.
Proof.
  unfold column.
  destruct (Nat.ltb_spec c (feat_dim x)), (Nat.leb_spec (S c) (feat_dim x));
    (reflexivity || lia).
Qed.

Lemma delta_R_key_rowwise (d : list (list (list F))) :
  delta_R_key (map (map (fun row => nth 1 row fzero)) d)
              (map (map (fun row => nth 2 row fzero)) d) =
  map (map (row_key by_delta_R)) d.
Proof.
  unfold delta_R_key. rewrite zip_with_map.
  apply map_ext; intros ev.
  rewrite !map_map, zip_with_map, map_map. reflexivity.
Qed.

(** Every scalar key array is computed row by row. *)
Lemma sort_key_rowwise (choice : sort_by_choice) (x : ndarray F) :
  choice <> by_cluster ->
  sort_key choice x =
  Some (if columns_read choice <=? feat_dim x
        then Ok (map (map (row_key choice)) (data x))
        else Raise IndexError).
Proof.
  intros Hc. destruct choice; try congruence;
    unfold sort_key, columns_read; rewrite !column_eq; try reflexivity.
  - destruct (Nat.leb_spec 3 (feat_dim x)), (Nat.leb_spec 2 (feat_dim x));
      try lia; cbn [bind]; try reflexivity.
    now rewrite delta_R_key_rowwise.
  - destruct (Nat.leb_spec 3 (feat_dim x)), (Nat.leb_spec 2 (feat_dim x)),
      (Nat.leb_spec 1 (feat_dim x)); try lia; cbn [bind]; try reflexivity.
    rewrite delta_R_key_rowwise, zip_with_map.
    do 2 f_equal. apply map_ext; intros ev. now rewrite zip_with_map.
Qed.

(** The scalar branches of [main] all have the shape key, [sort_idx],
    [take_along_axis]. *)
Lemma main_scalar (args : Args F) (x : ndarray F) :
  sort_by args <> by_cluster ->
  exists k, sort_key (sort_by args) x = Some k /\
            main args x = (key <- k ;; take_along_axis x (sort_idx key)).
Proof.
  intros Hc. unfold main. destruct (sort_by args); try congruence;
    simpl; eexists; (split; [reflexivity|]); reflexivity.
Qed.

Lemma get_rows_ok (event : list (list F)) (p : list nat) :
  Forall (fun i => i < length event) p ->
  mapM (get_row event) p = Ok (map (fun i => nth i event []) p).
Proof.
  intros Hp. apply mapM_ok_map. intros i Hi.
  rewrite Forall_forall in Hp. specialize (Hp i Hi).
  unfold get_row.
  destruct (nth_error event i) as [r|] eqn:Er.
  - now rewrite (nth_error_nth _ _ _ Er).
  - apply nth_error_None in Er. lia.
Qed.

Lemma take_along_axis_sort (x : ndarray F) (g : list F -> F) :
  take_along_axis x (sort_idx (map (map g) (data x))) =
  Ok {| n_events := n_events x; n_particles := n_particles x;
        feat_dim := feat_dim x; data := map (sort_event g) (data x) |}.
Proof.
  unfold take_along_axis, sort_idx.
  assert (mapM (fun ep => mapM (get_row (fst ep)) (snd ep))
               (combine (data x) (map argsort_desc (map (map g) (data x)))) =
          Ok (map (sort_event g) (data x))) as ->; [|reflexivity].
  induction (data x) as [|ev d IH]; [reflexivity|].
  cbn [map combine mapM fst snd]. rewrite IH, get_rows_ok.
  - reflexivity.
  - rewrite <- (length_map g ev). apply argsort_desc_in_range.
Qed.

(** A scalar branch of [main] in closed form. *)
Lemma main_scalar_spec (args : Args F) (x : ndarray F) :
  sort_by args <> by_cluster ->
  main args x =
  if columns_read (sort_by args) <=? feat_dim x
  then Ok {| n_events := n_events x; n_particles := n_particles x;
             feat_dim := feat_dim x;
             data := map (sort_event (row_key (sort_by args))) (data x) |}
  else Raise IndexError.
Proof.
  intros Hc. destruct (main_scalar args x Hc) as (k & Hk & ->).
  rewrite (sort_key_rowwise x Hc) in Hk. injection Hk as <-.
  destruct (columns_read (sort_by args) <=? feat_dim x); [|reflexivity].
  cbn [bind]. apply take_along_axis_sort.
Qed.

End ScalarFacts.

(** ** The chunk loop *)

Lemma for_each_ext {A S : Type} (l : list A) (b1 b2 : A -> S -> result S) (s : S) :
  (forall a s', b1 a s' = b2 a s') -> for_each l b1 s = for_each l b2 s.
Proof.
  intros Hb; revert s; induction l as [|a l IH]; simpl; intros s; [reflexivity|].
  rewrite Hb. destruct (b2 a s); simpl; auto.
Qed.

Lemma for_each_map {A B S : Type} (h : A -> B) (l : list A)
  (body : B -> S -> result S) (s : S) :
  for_each (map h l) body s = for_each l (fun a => body (h a)) s.
Proof.
  revert s; induction l as [|a l IH]; simpl; intros s; [reflexivity|].
  destruct (body (h a) s); simpl; auto.
Qed.

Lemma for_each_flat_map {A B S : Type} (g : A -> list B) (l : list A)
  (body : B -> S -> result S) (s : S) :
  for_each (flat_map g l) body s =
  for_each l (fun a s' => for_each (g a) body s') s.
Proof.
  revert s; induction l as [|a l IH]; simpl; intros s; [reflexivity|].
  rewrite for_each_app. destruct (for_each (g a) body s); simpl; auto.
Qed.

Lemma enumerate_shift {A : Type} (s : nat) (l : list A) (c o : nat) :
  map (fun ie => ((Z.of_nat s + Z.of_nat (fst ie))%Z, snd ie)) (combine (seq o c) l) =
  combine (map Z.of_nat (seq (s + o) c)) l.
Proof.
  revert l o; induction c as [|c IH]; intros l o; [reflexivity|].
  destruct l as [|a l]; [reflexivity|].
  cbn [seq combine map fst snd]. rewrite <- Nat2Z.inj_add. f_equal.
  rewrite IH. now rewrite Nat.add_succ_r.
Qed.

Lemma firstn_plus {A : Type} (a b : nat) (l : list A) :
  firstn (a + b) l = firstn a l ++ firstn b (skipn a l).
Proof.
  revert l; induction a as [|a IH]; intros l; [reflexivity|].
  destruct l as [|x l]; simpl.
  - now rewrite firstn_nil.
  - now rewrite IH.
Qed.

Lemma combine_app_same {A B : Type} (l1 l2 : list A) (m1 m2 : list B) :
  length l1 = length m1 ->
  combine (l1 ++ l2) (m1 ++ m2) = combine l1 m1 ++ combine l2 m2.
Proof.
  revert m1; induction l1 as [|a l1 IH]; intros [|b m1] Hl; simpl in *;
    try discriminate; [reflexivity|].
  f_equal. apply IH. lia.
Qed.

(** The rows of one chunk, tagged with their output slots. *)
Lemma tagged_chunk {A : Type} (l : list A) (s b : nat) :
  let stop := Z.min (Z.of_nat s + Z.of_nat b) (Z.of_nat (length l)) in
  let c := Nat.min (s + b) (length l) - s in
  map (fun ie => ((Z.of_nat s + Z.of_nat (fst ie))%Z, snd ie))
      (enumerate (py_slice l (Z.of_nat s) stop)) =
  combine (map Z.of_nat (seq s c)) (firstn c (skipn s l)).
Proof.
  intros stop c. unfold enumerate, py_slice.
  assert (slice_bound (length l) (Z.of_nat s) = Nat.min s (length l)) as ->.
  { unfold slice_bound. destruct (Z.ltb_spec (Z.of_nat s) 0); [lia|].
    now rewrite Nat2Z.id. }
  assert (slice_bound (length l) stop = Nat.min (s + b) (length l)) as ->.
  { unfold slice_bound, stop. destruct (Z.ltb_spec (Z.min (Z.of_nat s + Z.of_nat b) (Z.of_nat (length l))) 0); lia. }
  destruct (Nat.le_gt_cases s (length l)) as [Hs|Hs].
  - replace (Nat.min s (length l)) with s by lia.
    fold c. rewrite enumerate_shift, Nat.add_0_r.
    rewrite length_firstn, length_skipn.
    replace (Nat.min c (length l - s)) with c by (unfold c; lia).
    reflexivity.
  - replace (Nat.min (s + b) (length l) - Nat.min s (length l)) with 0 by lia.
    replace c with 0 by (unfold c; lia). reflexivity.
Qed.

Lemma chunks_prefix {A : Type} (l : list A) (b j : nat) :
  flat_map
    (fun start =>
       let stop := Z.min (start + Z.of_nat b) (Z.of_nat (length l)) in
       map (fun ie => ((start + Z.of_nat (fst ie))%Z, snd ie))
           (enumerate (py_slice l start stop)))
    (map (fun k => (0 + Z.of_nat k * Z.of_nat b)%Z) (seq 0 j)) =
  combine (map Z.of_nat (seq 0 (Nat.min (j * b) (length l)))) (firstn (j * b) l).
Proof.
  induction j as [|j IH]; [reflexivity|].
  rewrite seq_S, map_app, flat_map_app, IH. cbn [map flat_map plus].
  rewrite app_nil_r.
  replace (0 + Z.of_nat j * Z.of_nat b)%Z with (Z.of_nat (j * b)) by lia.
  rewrite (tagged_chunk l (j * b) b).
  set (s := j * b). set (c := Nat.min (s + b) (length l) - s).
  destruct (Nat.le_gt_cases s (length l)) as [Hs|Hs].
  - replace (Nat.min s (length l)) with s by lia.
    replace (Nat.min (S j * b) (length l)) with (s + c) by (unfold c, s; lia).
    rewrite seq_app, map_app, <- combine_app_same.
    + f_equal. rewrite <- firstn_plus.
      destruct (Nat.le_gt_cases (s + b) (length l)).
      * f_equal. unfold c, s. lia.
      * rewrite !firstn_all2; [reflexivity| unfold s; lia | unfold c; lia].
    + rewrite length_map, length_seq, length_firstn. lia.
  - replace c with 0 by (unfold c; lia). cbn [seq map combine].
    rewrite app_nil_r.
    replace (Nat.min (S j * b) (length l)) with (Nat.min s (length l))
      by (unfold s; lia).
    rewrite !firstn_all2; [reflexivity| unfold s; lia | lia].
Qed.

Section ChunkFacts.
Context {F : Type} {ops : FloatOps F} {fastjet : FastJet F}.

Lemma py_range_chunks (n : nat) (b : Z) :
  (0 < b)%Z ->
  exists j, n <= j * Z.to_nat b /\
    py_range 0 (Z.of_nat n) b =
    Ok (map (fun k => (0 + Z.of_nat k * Z.of_nat (Z.to_nat b))%Z) (seq 0 j)).
Proof.
  intros Hb. unfold py_range.
  destruct (Z.eqb_spec b 0); [lia|].
  destruct (Z.ltb_spec 0 b); [|lia].
  rewrite Z2Nat.id by lia.
  destruct (Z.ltb_spec 0 (Z.of_nat n)) as [Hn|Hn].
  - eexists; split; [|reflexivity].
    pose proof (Z.mul_succ_div_gt (Z.of_nat n - 0 - 1) b Hb) as Hgt.
    pose proof (Z.div_pos (Z.of_nat n - 0 - 1) b ltac:(lia) Hb) as Hpos.
    apply Nat2Z.inj_le. rewrite Nat2Z.inj_mul, !Z2Nat.id by lia. lia.
  - exists 0; split; [lia|reflexivity].
Qed.

(** The two loops go through the events in order, one output slot each. *)
Lemma chunk_visits_eq (x : ndarray F) (b : Z) :
  length (data x) = n_events x -> (0 < b)%Z ->
  chunk_visits x b =
  Ok (combine (map Z.of_nat (seq 0 (n_events x))) (data x)).
Proof.
  intros Hlen Hb. unfold chunk_visits.
  destruct (py_range_chunks (n_events x) Hb) as (j & Hj & ->).
  assert (exists bn, b = Z.of_nat bn) as (bn & ->) by (exists (Z.to_nat b); lia).
  rewrite Nat2Z.id in *.
  cbn [bind]. f_equal.
  rewrite <- Hlen in *. rewrite chunks_prefix.
  rewrite firstn_all2 by lia. now rewrite Nat.min_r by lia.
Qed.

End ChunkFacts.

(** ** [sort_events_by_cluster] *)

Section ClusterFacts.
Context {F : Type} {ops : FloatOps F} {fastjet : FastJet F}.

(** The nested loops are one loop over [chunk_visits]. *)
Lemma sort_events_by_cluster_visits (x : ndarray F) (R : F) (b : Z) :
  sort_events_by_cluster x R b =
  (jet_def <- JetDefinition R ;;
   visits <- chunk_visits x b ;;
   sorted_x <- for_each visits
                 (write_event jet_def (n_particles x) (feat_dim x))
                 (data (zeros_like x)) ;;
   Ok {| n_events := n_events x; n_particles := n_particles x;
         feat_dim := feat_dim x; data := sorted_x |}).
Proof.
  unfold sort_events_by_cluster, chunk_visits.
  destruct (JetDefinition R) as [jd|e]; [|reflexivity]. cbn [bind].
  destruct (py_range 0 (Z.of_nat (n_events x)) b) as [starts|e]; [|reflexivity].
  cbn [bind]. rewrite for_each_flat_map.
  match goal with
  | |- bind ?m1 _ = bind ?m2 _ => assert (m1 = m2) as ->; [|reflexivity]
  end.
  apply for_each_ext. intros start sx. cbn zeta.
  now rewrite for_each_map.
Qed.

Lemma set_nth_app {A : Type} (l1 l2 : list A) (a v : A) :
  set_nth (length l1) v (l1 ++ a :: l2) = l1 ++ v :: l2.
Proof.
  induction l1 as [|b l1 IH]; simpl; [reflexivity|]. now rewrite IH.
Qed.

Lemma norm_index_in_range (len k : nat) :
  k < len -> norm_index len (Z.of_nat k) = Ok k.
Proof.
  intros Hk. unfold norm_index.
  destruct (Z.ltb_spec (Z.of_nat k) 0); [lia|].
  destruct (Z.leb_spec 0 (Z.of_nat k)); [|lia].
  destruct (Z.ltb_spec (Z.of_nat k) (Z.of_nat len)); [|lia].
  simpl. now rewrite Nat2Z.id.
Qed.

(** Writing the events one after the other into the preallocated array
    fills it with the rows of [event_write], in order. *)
Lemma write_loop (jd : jet_definition) (n fd : nat) (evs : list (list (list F))) :
  forall done rest : list (list (list F)),
    length rest = length evs ->
    for_each (combine (map Z.of_nat (seq (length done) (length evs))) evs)
             (write_event jd n fd) (done ++ rest) =
    (ds <- mapM (event_write jd n fd) evs ;; Ok (done ++ ds)).
Proof.
  induction evs as [|ev evs IH]; intros done rest Hlen.
  - destruct rest; [reflexivity|discriminate].
  - destruct rest as [|r rest]; [discriminate|].
    cbn [length seq map combine for_each mapM].
    unfold write_event at 1, event_write at 1. cbn [fst snd].
    destruct (reorder_event jd n fd ev) as [rows|e]; [|reflexivity].
    cbn [bind]. unfold setitem.
    rewrite norm_index_in_range by (rewrite length_app; simpl; lia).
    cbn [bind]. rewrite !set_nth_app.
    assert (forall v : list (list F),
              for_each (combine (map Z.of_nat (seq (S (length done)) (length evs))) evs)
                       (write_event jd n fd) (done ++ v :: rest) =
              (bs <- mapM (event_write jd n fd) evs ;; Ok (done ++ v :: bs))) as Hstep.
    { intros v. specialize (IH (done ++ [v]) rest).
      rewrite length_app, Nat.add_1_r, <- app_assoc in IH. simpl in IH.
      rewrite IH by (simpl in Hlen; lia).
      destruct (mapM (event_write jd n fd) evs); simpl; [|reflexivity].
      now rewrite <- app_assoc. }
    destruct (length rows =? n).
    + cbn [bind]. rewrite Hstep.
      destruct (mapM (event_write jd n fd) evs); reflexivity.
    + destruct (length rows =? 1); [|reflexivity].
      cbn [bind]. rewrite Hstep.
      destruct (mapM (event_write jd n fd) evs); reflexivity.
Qed.

(** With a positive chunk size the function is a map of [event_write]
    over the events. *)
Lemma sort_events_by_cluster_spec (x : ndarray F) (R : F) (b : Z) :
  wf x -> (0 < b)%Z ->
  sort_events_by_cluster x R b =
  (jet_def <- JetDefinition R ;;
   d <- mapM (event_write jet_def (n_particles x) (feat_dim x)) (data x) ;;
   Ok {| n_events := n_events x; n_particles := n_particles x;
         feat_dim := feat_dim x; data := d |}).
Proof.
  intros [Hlen _] Hb. rewrite sort_events_by_cluster_visits.
  destruct (JetDefinition R) as [jd|e]; [|reflexivity]. cbn [bind].
  rewrite chunk_visits_eq by assumption. cbn [bind].
  pose proof (write_loop jd (n_particles x) (feat_dim x) (data x) []
                (data (zeros_like x))) as Hw.
  cbn [length app] in Hw. rewrite Hlen in Hw.
  rewrite Hw by (simpl; now rewrite repeat_length).
  destruct (mapM _ (data x)); reflexivity.
Qed.

(** *** One event *)

Lemma slots_NoDup (n : nat) : NoDup (slots n).
Proof.
  unfold slots. induction (seq_NoDup n 0) as [|a l Ha Hl IH]; simpl; constructor.
  - rewrite in_map_iff. intros (b & Hb & Hin).
    apply Nat2Z.inj in Hb. now subst.
  - assumption.
Qed.

Lemma slots_in (n : nat) (i : Z) : In i (slots n) <-> (0 <= i < Z.of_nat n)%Z.
Proof.
  unfold slots. rewrite in_map_iff. split.
  - intros (k & <- & Hk). apply in_seq in Hk. lia.
  - intros Hi. exists (Z.to_nat i). split; [lia|]. apply in_seq. lia.
Qed.

Lemma not_in_false (l : list Z) (i : Z) : not_in l i = false <-> In i l.
Proof.
  unfold not_in. rewrite negb_false_iff, existsb_exists. split.
  - intros (j & Hj & Heq). apply Z.eqb_eq in Heq. now subst.
  - intros Hi. exists i. split; [assumption|apply Z.eqb_refl].
Qed.

(** Every slot occurs in the assembled sequence. *)
Lemma assemble_indices_incl (n : nat) (jets : list (Jet F)) :
  incl (slots n) (assemble_indices n jets).
Proof.
  intros i Hi. unfold assemble_indices. apply in_or_app.
  destruct (not_in (jet_indices (sorted_by perp true jets)) i) eqn:Eni.
  - right. apply filter_In. split; assumption.
  - left. now apply not_in_false.
Qed.

(** A sequence of the right length is a rearrangement of the slots. *)
Lemma assemble_indices_perm (n : nat) (jets : list (Jet F)) :
  length (assemble_indices n jets) = n ->
  Permutation (slots n) (assemble_indices n jets).
Proof.
  intros Hlen. apply NoDup_Permutation_bis.
  - apply slots_NoDup.
  - unfold slots. rewrite length_map, length_seq. lia.
  - apply assemble_indices_incl.
Qed.

Lemma jet_indices_sorted_perm (jets : list (Jet F)) :
  Permutation (jet_indices (sorted_by perp true jets)) (jet_indices jets).
Proof.
  unfold jet_indices. apply Permutation_flat_map, sorted_by_perm.
Qed.

Lemma fancy_index_length (event : list (list F)) (idxs : list Z)
  (rows : list (list F)) :
  fancy_index event idxs = Ok rows -> length rows = length idxs.
Proof.
  intros Hf. apply mapM_ok_Forall2, Forall2_length in Hf. auto.
Qed.

Lemma fancy_index_slots (event : list (list F)) (idxs : list Z) :
  incl idxs (slots (length event)) ->
  fancy_index event idxs = Ok (map (fun i => nth (Z.to_nat i) event []) idxs).
Proof.
  intros Hin. apply mapM_ok_map. intros i Hi.
  apply Hin, slots_in in Hi.
  rewrite <- (Z2Nat.id i) at 1 by lia.
  rewrite norm_index_in_range by lia. cbn [bind]. unfold get_row.
  destruct (nth_error event (Z.to_nat i)) as [r|] eqn:Er.
  - now rewrite (nth_error_nth _ _ _ Er).
  - apply nth_error_None in Er. lia.
Qed.

Lemma fancy_index_empty (i : Z) (idxs : list Z) :
  is_error (fancy_index (@nil (list F)) (i :: idxs)).
Proof.
  assert (norm_index 0 i = Raise IndexError) as Hn.
  { unfold norm_index.
    destruct (i <? 0)%Z eqn:E1; [apply Z.ltb_lt in E1|apply Z.ltb_ge in E1].
    - replace (0 <=? i + Z.of_nat 0)%Z with false
        by (symmetry; apply Z.leb_gt; lia).
      reflexivity.
    - replace (i <? Z.of_nat 0)%Z with false
        by (symmetry; apply Z.ltb_ge; lia).
      now rewrite andb_false_r. }
  exists IndexError. unfold fancy_index. cbn [mapM length].
  now rewrite Hn.
Qed.

Lemma filter_none {A : Type} (f : A -> bool) (l : list A) :
  (forall a, In a l -> f a = false) -> filter f l = [].
Proof.
  induction l as [|a l IH]; simpl; intros Hf; [reflexivity|].
  rewrite (Hf a (or_introl eq_refl)). apply IH. intros; apply Hf; now right.
Qed.

Lemma event_indices_inv (jd : jet_definition) (n fd : nat)
  (event : list (list F)) (idxs : list Z) :
  event_indices jd n fd event = Ok idxs ->
  exists ps jets, event_pseudojets n fd event = Ok ps /\
                  inclusive_jets ps jd = Ok jets /\
                  idxs = assemble_indices n jets.
Proof.
  unfold event_indices. intros Hi.
  apply bind_ok_inv in Hi as (ps & Hps & Hi).
  apply bind_ok_inv in Hi as (jets & Hjets & Hi).
  injection Hi as <-. eauto.
Qed.

(** When line 132 goes through, the index sequence is a rearrangement of
    the slots and the stored rows are the event's rows in that order. *)
Lemma event_write_ok (jd : jet_definition) (n fd : nat)
  (event rows : list (list F)) :
  length event = n ->
  event_write jd n fd event = Ok rows ->
  exists idxs, event_indices jd n fd event = Ok idxs /\
               Permutation (slots n) idxs /\
               rows = map (fun i => nth (Z.to_nat i) event []) idxs.
Proof.
  intros Hev Hw. unfold event_write, reorder_event in Hw.
  apply bind_ok_inv in Hw as (rows0 & Hr & Hw).
  apply bind_ok_inv in Hr as (idxs & Hi & Hf).
  exists idxs. split; [assumption|].
  pose proof Hi as Hi0. apply event_indices_inv in Hi0 as (ps & jets & _ & _ & ->).
  pose proof Hf as Hlen. apply fancy_index_length in Hlen.
  assert (length (assemble_indices n jets) = n) as Hn.
  { destruct (Nat.eqb_spec (length rows0) n) as [Hn|Hn]; [lia|].
    destruct (Nat.eqb_spec (length rows0) 1) as [H1|H1]; [|discriminate].
    exfalso.
    pose proof (NoDup_incl_length (slots_NoDup n)
                  (assemble_indices_incl n jets)) as Hle.
    unfold slots in Hle. rewrite length_map, length_seq in Hle.
    assert (n = 0) as -> by lia.
    destruct event; [|discriminate].
    destruct (assemble_indices 0 jets) as [|i idxs]; [simpl in Hlen; lia|].
    destruct (fancy_index_empty i idxs) as [e He]. congruence. }
  pose proof (@assemble_indices_perm n jets Hn) as Hp.
  split; [assumption|].
  rewrite fancy_index_slots in Hf.
  - injection Hf as <-.
    rewrite length_map, Hn, Nat.eqb_refl in Hw. now injection Hw as <-.
  - rewrite Hev. intros i Hi'. eapply Permutation_in; [|exact Hi'].
    now apply Permutation_sym.
Qed.

(** Duplicate membership makes line 132 raise. *)
Lemma event_write_duplicate (jd : jet_definition) (n fd : nat)
  (event : list (list F)) (ps : list (PseudoJet F)) (jets : list (Jet F)) :
  length event = n ->
  event_pseudojets n fd event = Ok ps ->
  inclusive_jets ps jd = Ok jets ->
  ~ NoDup (jet_indices jets) ->
  is_error (event_write jd n fd event).
Proof.
  intros Hev Hps Hjets Hdup.
  destruct (event_write jd n fd event) as [rows|e] eqn:Hw; [exfalso|now exists e].
  apply event_write_ok in Hw as (idxs & Hi & Hp & _); [|assumption].
  apply event_indices_inv in Hi as (ps' & jets' & Hps' & Hjets' & ->).
  assert (ps' = ps) as -> by congruence.
  assert (jets' = jets) as -> by congruence.
  apply Hdup.
  eapply Permutation_NoDup; [apply jet_indices_sorted_perm|].
  eapply NoDup_app_remove_r.
  eapply Permutation_NoDup; [exact Hp|apply slots_NoDup].
Qed.

Lemma event_pseudojets_ok (n fd : nat) (event : list (list F)) :
  3 <= fd ->
  exists ps, event_pseudojets n fd event = Ok ps /\ map user_index ps = slots n.
Proof.
  intros Hfd. unfold event_pseudojets, event_column.
  destruct (Nat.ltb_spec 0 fd); [|lia].
  destruct (Nat.ltb_spec 1 fd); [|lia].
  destruct (Nat.ltb_spec 2 fd); [|lia].
  cbn [bind]. eexists; split; [reflexivity|].
  unfold build_pseudojets, slots. rewrite map_map. reflexivity.
Qed.

(** With a clusterer that honours its contract, line 132 goes through. *)
Lemma event_write_total (jd : jet_definition) (n fd : nat)
  (event : list (list F)) (ps : list (PseudoJet F)) (jets : list (Jet F)) :
  length event = n -> 3 <= fd ->
  event_pseudojets n fd event = Ok ps ->
  inclusive_jets ps jd = Ok jets ->
  partitions ps jets ->
  exists rows, event_write jd n fd event = Ok rows.
Proof.
  intros Hev Hfd Hps Hjets Hpart.
  destruct (event_pseudojets_ok n event Hfd) as (ps' & Hps' & Hidx).
  assert (ps' = ps) as -> by congruence.
  unfold partitions in Hpart. rewrite Hidx in Hpart.
  fold (jet_indices jets) in Hpart.
  assert (Permutation (jet_indices (sorted_by perp true jets)) (slots n)) as Hp.
  { rewrite jet_indices_sorted_perm. exact Hpart. }
  assert (assemble_indices n jets = jet_indices (sorted_by perp true jets)) as Ha.
  { unfold assemble_indices. fold (slots n).
    rewrite filter_none; [apply app_nil_r|].
    intros i Hi. apply not_in_false.
    eapply Permutation_in; [apply Permutation_sym; exact Hp|exact Hi]. }
  unfold event_write, reorder_event, event_indices.
  rewrite Hps. cbn [bind]. rewrite Hjets. cbn [bind].
  rewrite Ha, fancy_index_slots.
  - cbn [bind]. rewrite length_map, (Permutation_length Hp).
    unfold slots. rewrite length_map, length_seq, Nat.eqb_refl. eauto.
  - rewrite Hev. intros i Hi. eapply Permutation_in; [exact Hp|exact Hi].
Qed.

End ClusterFacts.

(** ** The sample instances *)

Lemma Z_float_order : FloatOrder (F := Z).
Proof.
  split; unfold fle; simpl.
  - intros a b. destruct (Z.ltb_spec b a), (Z.ltb_spec a b); auto. lia.
  - intros a b c Hab Hbc.
    apply negb_true_iff, Z.ltb_ge in Hab, Hbc.
    apply negb_true_iff, Z.ltb_ge. lia.
Qed.

Lemma wf_tied_pair : wf tied_pair.
Proof. repeat constructor. Defined.

Lemma wf_three_events : wf three_events.
Proof. repeat constructor. Defined.

(** * The claims *)

Section Claims.
Context {F : Type} {ops : FloatOps F} {ord : FloatOrder (F := F)}
  {fastjet : FastJet F}.

Lemma argsort_desc_sorted (keys : list F) :
  StronglySorted (desc_then keys gt) (argsort_desc keys).
Proof.
  unfold argsort_desc, argsort.
  apply StronglySorted_rev
    with (R := key_then (fun i => nth i keys fzero) lt).
  apply stable_sort_by_sorted, StronglySorted_seq.
Qed.

Lemma sort_idx_bijections (n : nat) (key : list (list F)) :
  Forall (fun keys => length keys = n) key ->
  Forall (fun p => Permutation p (seq 0 n)) (sort_idx key).
Proof.
  unfold sort_idx. induction 1 as [|keys key Hk _ IH]; simpl; constructor.
  - rewrite <- Hk. apply argsort_desc_perm.
  - assumption.
Qed.

Lemma rowwise_key_shape (x : ndarray F) (g : list F -> F) :
  wf x ->
  length (map (map g) (data x)) = n_events x /\
  Forall (fun keys => length keys = n_particles x) (map (map g) (data x)).
Proof.
  intros [Hlen Hev]. rewrite length_map. split; [assumption|].
  apply Forall_map. eapply Forall_impl; [|exact Hev].
  intros ev [Hn _]. now rewrite length_map.
Qed.

Lemma sort_key_ok_inv (choice : sort_by_choice) (x : ndarray F)
  (key : list (list F)) :
  sort_key choice x = Some (Ok key) ->
  choice <> by_cluster /\ columns_read choice <= feat_dim x /\
  key = map (map (row_key choice)) (data x).
Proof.
  intros Hk.
  assert (choice <> by_cluster) as Hc by (intros ->; discriminate).
  rewrite (sort_key_rowwise x Hc) in Hk.
  destruct (Nat.leb_spec (columns_read choice) (feat_dim x)); [|discriminate].
  injection Hk as <-. auto.
Qed.

(** C1. For every event and every selector the index sequence the code
    applies to the event's rows is a rearrangement of [0, n_particles):
    every original slot occurs exactly once.  For the five scalar choices
    this is the row of [sort_idx]; for the cluster choice it is
    [sorted_indices] whenever the assignment of line 132 goes through, and
    it does go through when the clusterer puts every particle in exactly
    one jet. *)
Theorem permutation_is_bijection (x : ndarray F) :
  wf x ->
  (forall choice, choice <> by_cluster -> 3 <= feat_dim x ->
     exists key, sort_key choice x = Some (Ok key)) /\
  (forall choice key, sort_key choice x = Some (Ok key) ->
     length (sort_idx key) = n_events x /\
     Forall (fun p => Permutation p (seq 0 (n_particles x))) (sort_idx key)) /\
  (forall jd event rows, In event (data x) ->
     event_write jd (n_particles x) (feat_dim x) event = Ok rows ->
     exists idxs,
       event_indices jd (n_particles x) (feat_dim x) event = Ok idxs /\
       Permutation idxs (slots (n_particles x))) /\
  (forall jd event ps jets, In event (data x) -> 3 <= feat_dim x ->
     event_pseudojets (n_particles x) (feat_dim x) event = Ok ps ->
     inclusive_jets ps jd = Ok jets -> partitions ps jets ->
     exists rows, event_write jd (n_particles x) (feat_dim x) event = Ok rows).
Proof.
  intros Hwf. pose proof Hwf as [Hlen Hev]. rewrite Forall_forall in Hev.
  split; [|split; [|split]].
  - intros choice Hc Hfd. rewrite (sort_key_rowwise x Hc).
    destruct (Nat.leb_spec (columns_read choice) (feat_dim x)); [eauto|].
    destruct choice; simpl in *; lia.
  - intros choice key Hk. apply sort_key_ok_inv in Hk as (_ & _ & ->). split.
    + unfold sort_idx. rewrite length_map. now apply rowwise_key_shape.
    + apply sort_idx_bijections. now apply rowwise_key_shape.
  - intros jd event rows Hin Hw.
    apply event_write_ok in Hw as (idxs & Hi & Hp & _); [|now apply Hev].
    exists idxs. split; [assumption|now apply Permutation_sym].
  - intros jd event ps jets Hin Hfd Hps Hjets Hpart.
    eapply event_write_total; eauto. now apply Hev.
Qed.

Lemma argsort_desc_descending (keys : list F) :
  StronglySorted
    (fun a b => fle (nth b keys fzero) (nth a keys fzero) = true)
    (argsort_desc keys).
Proof.
  eapply StronglySorted_weaken; [|apply argsort_desc_sorted].
  intros a b _ _ [Hlt|[Hnlt _]].
  - now apply flt_fle.
  - unfold fle. now rewrite Hnlt.
Qed.

(** C2 (amended).  For every scalar choice and every event, the index row
    that [main] hands to [take_along_axis] is a rearrangement of the slots
    ordered by key descending: the key of a slot is at least the key of
    every slot after it.  Nothing is promised about the order among slots
    whose keys compare equal; in particular they are not put in ascending
    slot order.  The same holds of the reversed result of every function
    that meets the contract of [np.argsort], whatever it does with equal
    keys. *)
Theorem scalar_sort_order (args : Args F) (x : ndarray F)
  (key : list (list F)) :
  sort_key (sort_by args) x = Some (Ok key) ->
  main_sort_idx (sort_by args) x = Some (Ok (sort_idx key)) /\
  main args x = take_along_axis x (sort_idx key) /\
  Forall2 (fun keys p =>
             Permutation p (seq 0 (length keys)) /\
             StronglySorted
               (fun a b => fle (nth b keys fzero) (nth a keys fzero) = true) p)
          key (sort_idx key) /\
  (forall np_argsort : list F -> list nat,
     (forall keys, Permutation (np_argsort keys) (seq 0 (length keys))) ->
     (forall keys,
        StronglySorted
          (fun a b => fle (nth a keys fzero) (nth b keys fzero) = true)
          (np_argsort keys)) ->
     Forall (fun keys =>
               Permutation (rev (np_argsort keys)) (seq 0 (length keys)) /\
               StronglySorted
                 (fun a b => fle (nth b keys fzero) (nth a keys fzero) = true)
                 (rev (np_argsort keys)))
            key).
Proof.
  intros Hk. split; [|split; [|split]].
  - unfold main_sort_idx. now rewrite Hk.
  - assert (sort_by args <> by_cluster) as Hc.
    { intros Hc. rewrite Hc in Hk. discriminate. }
    destruct (main_scalar args x Hc) as (k & Hk' & ->).
    rewrite Hk in Hk'. now injection Hk' as <-.
  - unfold sort_idx. clear Hk. induction key as [|keys key IH]; simpl; constructor.
    + split; [apply argsort_desc_perm|apply argsort_desc_descending].
    + assumption.
  - intros np_argsort Hperm Hsorted. apply Forall_forall. intros keys _. split.
    + rewrite <- Permutation_rev. apply Hperm.
    + apply StronglySorted_rev
        with (R := fun a b => fle (nth a keys fzero) (nth b keys fzero) = true).
      apply Hsorted.
Qed.

(** *** Sorting twice *)

Lemma StronglySorted_nth {A : Type} (R : A -> A -> Prop) (l : list A) (d : A) :
  StronglySorted R l ->
  forall i j, i < j -> j < length l -> R (nth i l d) (nth j l d).
Proof.
  induction 1 as [|a l Hs IH Ha]; intros i j Hij Hj; simpl in *; [lia|].
  destruct j as [|j]; [lia|]. destruct i as [|i].
  - rewrite Forall_forall in Ha. apply Ha, nth_In. lia.
  - apply IH; lia.
Qed.

Lemma StronglySorted_map {A B : Type} (R : B -> B -> Prop) (f : A -> B)
  (l : list A) :
  StronglySorted (fun a b => R (f a) (f b)) l -> StronglySorted R (map f l).
Proof.
  induction 1 as [|a l Hs IH Ha]; simpl; constructor; [assumption|].
  apply Forall_map. exact Ha.
Qed.

Lemma map_nth_seq {A : Type} (l : list A) (d : A) :
  map (fun i => nth i l d) (seq 0 (length l)) = l.
Proof.
  induction l as [|a l IH]; [reflexivity|].
  cbn [length seq map nth]. f_equal.
  rewrite <- seq_shift, map_map. exact IH.
Qed.

Lemma key_then_lt_asym (keys : list F) (a b : nat) :
  key_then (fun i => nth i keys fzero) lt a b ->
  key_then (fun i => nth i keys fzero) lt b a -> False.
Proof.
  intros [Hab|[Hab Hlt]] [Hba|[Hba Hlt']]; try congruence; try lia.
  apply flt_fle in Hab. unfold fle in Hab. rewrite Hba in Hab. discriminate.
Qed.

(** Keys already in strictly descending order: the index row is the
    identity. *)
Lemma argsort_desc_of_descending (keys : list F) :
  StronglySorted (fun a b => flt b a = true) keys ->
  argsort_desc keys = seq 0 (length keys).
Proof.
  intros Hs. unfold argsort_desc.
  rewrite <- (rev_involutive (seq 0 (length keys))). f_equal.
  apply sorted_perm_unique
    with (R := key_then (fun i => nth i keys fzero) lt).
  - apply key_then_lt_asym.
  - apply stable_sort_by_sorted, StronglySorted_seq.
  - apply StronglySorted_rev
      with (R := fun a b => key_then (fun i => nth i keys fzero) lt b a).
    eapply StronglySorted_weaken; [|apply StronglySorted_seq].
    intros a b Ha Hb Hab. left. apply in_seq in Hb.
    apply (StronglySorted_nth fzero Hs); lia.
  - rewrite <- Permutation_rev. apply argsort_perm.
Qed.

(** With pairwise distinct keys, the keys read in [argsort_desc] order are
    strictly descending. *)
Lemma sorted_keys_descending (keys : list F) :
  distinct_keys keys ->
  StronglySorted (fun a b => flt b a = true)
                 (map (fun i => nth i keys fzero) (argsort_desc keys)).
Proof.
  intros Hd. apply StronglySorted_map.
  eapply StronglySorted_weaken; [|apply argsort_desc_sorted].
  intros a b Ha Hb [Hlt|[Hnlt Hgt]]; [assumption|].
  pose proof (argsort_desc_in_range keys) as Hr. rewrite Forall_forall in Hr.
  specialize (Hd a b (Hr a Ha) (Hr b Hb) ltac:(lia)).
  unfold feq, fle in Hd. rewrite Hnlt in Hd. simpl in Hd.
  rewrite andb_true_r in Hd. now apply negb_false_iff in Hd.
Qed.

Lemma sort_event_keys (g : list F -> F) (event : list (list F)) :
  map g (sort_event g event) =
  map (fun i => nth i (map g event) fzero) (argsort_desc (map g event)).
Proof.
  unfold sort_event. rewrite map_map. apply map_ext_in. intros i Hi.
  pose proof (argsort_desc_in_range (map g event)) as Hr.
  rewrite Forall_forall in Hr. specialize (Hr i Hi).
  rewrite (nth_indep _ fzero (g [])) by assumption.
  now rewrite map_nth.
Qed.

Lemma sort_event_length (g : list F -> F) (event : list (list F)) :
  length (sort_event g event) = length event.
Proof.
  unfold sort_event.
  rewrite length_map, (Permutation_length (argsort_desc_perm _)).
  now rewrite length_seq, length_map.
Qed.

Lemma sort_event_twice (g : list F -> F) (event : list (list F)) :
  distinct_keys (map g event) ->
  argsort_desc (map g (sort_event g event)) = seq 0 (length event) /\
  sort_event g (sort_event g event) = sort_event g event.
Proof.
  intros Hd.
  assert (argsort_desc (map g (sort_event g event)) = seq 0 (length event)) as Hid.
  { rewrite argsort_desc_of_descending.
    - now rewrite length_map, sort_event_length.
    - rewrite sort_event_keys. now apply sorted_keys_descending. }
  split; [assumption|].
  unfold sort_event at 1. rewrite Hid, <- (sort_event_length g event).
  apply map_nth_seq.
Qed.

(** C3 (amended).  For every scalar choice, when no two particles of an
    event have keys that compare equal, sorting the already sorted array
    again by the same key computes the identity index row for every event
    and leaves the array unchanged. *)
Theorem scalar_sort_idempotent (args : Args F) (x y : ndarray F) :
  sort_by args <> by_cluster ->
  (forall key, sort_key (sort_by args) x = Some (Ok key) ->
               Forall distinct_keys key) ->
  main args x = Ok y ->
  main_sort_idx (sort_by args) y =
    Some (Ok (map (fun event => seq 0 (length event)) (data x))) /\
  main args y = Ok y.
Proof.
  intros Hc Hd Hm. rewrite (main_scalar_spec args x Hc) in Hm.
  pose proof (sort_key_rowwise x Hc) as Hk.
  destruct (Nat.leb_spec (columns_read (sort_by args)) (feat_dim x)) as [Hfd|Hfd];
    [|discriminate].
  injection Hm as <-. specialize (Hd _ Hk).
  rewrite Forall_map, Forall_forall in Hd.
  set (g := row_key (sort_by args)) in *.
  split.
  - unfold main_sort_idx. rewrite (sort_key_rowwise _ Hc). cbn [feat_dim data].
    destruct (Nat.leb_spec (columns_read (sort_by args)) (feat_dim x)); [|lia].
    cbn [bind]. do 2 f_equal. unfold sort_idx. rewrite !map_map.
    apply map_ext_in. intros ev Hev. now apply sort_event_twice, Hd.
  - rewrite (main_scalar_spec args _ Hc). cbn [feat_dim data n_events n_particles].
    destruct (Nat.leb_spec (columns_read (sort_by args)) (feat_dim x)); [|lia].
    do 2 f_equal. rewrite map_map. apply map_ext_in. intros ev Hev.
    now apply sort_event_twice, Hd.
Qed.

(** *** Independence from the sorting algorithm

    [np.argsort] only promises a rearrangement of the indices that puts the
    keys in ascending order.  Any function with that contract agrees with
    [argsort] on rows of pairwise distinct keys, so what is proved for such
    rows does not depend on how NumPy treats equal keys. *)

Lemma StronglySorted_distinct_pairs {A : Type} (R : A -> A -> Prop) (l : list A) :
  NoDup l -> StronglySorted R l ->
  StronglySorted (fun a b => a <> b /\ R a b) l.
Proof.
  intros Hnd Hs; induction Hs as [|a l Hs IH Ha]; constructor.
  - apply IH. now apply NoDup_cons_iff in Hnd.
  - apply NoDup_cons_iff in Hnd as [Hnin _].
    rewrite Forall_forall in *. intros b Hb. split; [|auto].
    intros ->. contradiction.
Qed.

Section AnyArgsort.
Variable np_argsort : list F -> list nat.
Hypothesis np_argsort_perm :
  forall keys, Permutation (np_argsort keys) (seq 0 (length keys)).
Hypothesis np_argsort_sorted :
  forall keys,
    StronglySorted (fun a b => fle (nth a keys fzero) (nth b keys fzero) = true)
                   (np_argsort keys).

Lemma any_argsort_reversed_descending (keys : list F) :
  Permutation (rev (np_argsort keys)) (seq 0 (length keys)) /\
  StronglySorted (fun a b => fle (nth b keys fzero) (nth a keys fzero) = true)
                 (rev (np_argsort keys)).
Proof.
  split.
  - rewrite <- Permutation_rev. apply np_argsort_perm.
  - apply StronglySorted_rev
      with (R := fun a b => fle (nth a keys fzero) (nth b keys fzero) = true).
    apply np_argsort_sorted.
Qed.

Lemma any_argsort_distinct (keys : list F) :
  distinct_keys keys -> np_argsort keys = argsort keys.
Proof.
  intros Hd.
  apply sorted_perm_unique
    with (R := key_then (fun i => nth i keys fzero) lt).
  - apply key_then_lt_asym.
  - eapply StronglySorted_weaken;
      [|apply StronglySorted_distinct_pairs; [|apply np_argsort_sorted]].
    + intros a b Ha Hb [Hne Hle]. left.
      assert (a < length keys /\ b < length keys) as [Hla Hlb].
      { split; [apply (Permutation_in _ (np_argsort_perm keys)) in Ha
               |apply (Permutation_in _ (np_argsort_perm keys)) in Hb];
          apply in_seq in Ha || apply in_seq in Hb; lia. }
      specialize (Hd a b Hla Hlb Hne). unfold feq in Hd.
      rewrite Hle in Hd. simpl in Hd. unfold fle in Hd.
      now apply negb_false_iff in Hd.
    + eapply Permutation_NoDup;
        [apply Permutation_sym, np_argsort_perm|apply seq_NoDup].
  - apply stable_sort_by_sorted, StronglySorted_seq.
  - rewrite np_argsort_perm. apply Permutation_sym, argsort_perm.
Qed.

End AnyArgsort.

(** *** Errors of the cluster branch *)

(** C4.  If for some event the jets returned by the clusterer mention a
    particle index more than once, the assignment of line 132 raises for
    that event and [sort_events_by_cluster] ends with that or an earlier
    exception: no array is returned, and nothing is dropped or
    deduplicated. *)
Theorem duplicate_membership_raises (x : ndarray F) (R : F) (b : Z)
  (jd : jet_definition) (event : list (list F)) (ps : list (PseudoJet F))
  (jets : list (Jet F)) :
  wf x -> (0 < b)%Z ->
  JetDefinition R = Ok jd ->
  In event (data x) ->
  event_pseudojets (n_particles x) (feat_dim x) event = Ok ps ->
  inclusive_jets ps jd = Ok jets ->
  ~ NoDup (jet_indices jets) ->
  is_error (event_write jd (n_particles x) (feat_dim x) event) /\
  is_error (sort_events_by_cluster x R b).
Proof.
  intros Hwf Hb Hjd Hin Hps Hjets Hdup.
  assert (is_error (event_write jd (n_particles x) (feat_dim x) event)) as He.
  { eapply event_write_duplicate; eauto.
    destruct Hwf as [_ Hev]. rewrite Forall_forall in Hev. now apply Hev. }
  split; [assumption|].
  rewrite sort_events_by_cluster_spec by assumption.
  rewrite Hjd. cbn [bind].
  destruct (mapM_raise _ _ _ Hin He) as [e ->]. now exists e.
Qed.

Lemma main_ok_shape (args : Args F) (x y : ndarray F) :
  main args x = Ok y -> same_shape x y.
Proof.
  intros Hm.
  destruct (sort_by_choice_eq_dec (sort_by args) by_cluster) as [Hc|Hc].
  - unfold main in Hm. rewrite Hc in Hm. unfold sort_events_by_cluster in Hm.
    apply bind_ok_inv in Hm as (jd & _ & Hm).
    apply bind_ok_inv in Hm as (starts & _ & Hm).
    apply bind_ok_inv in Hm as (d & _ & Hm).
    injection Hm as <-. repeat split.
  - rewrite (main_scalar_spec args x Hc) in Hm.
    destruct (columns_read (sort_by args) <=? feat_dim x); [|discriminate].
    injection Hm as <-. repeat split.
Qed.

(** C5 (amended).  The declared [--num_particles] is never compared with
    the array: the ordering stage gives the same result, array or
    exception, whatever value is declared, and an array it returns has the
    particle count of the loaded array, not the declared one. *)
Theorem declared_num_particles_unused (args : Args F) (x : ndarray F) (n : Z) :
  main (with_num_particles n args) x = main args x /\
  forall y, main (with_num_particles n args) x = Ok y ->
            n_particles y = n_particles x.
Proof.
  split; [reflexivity|].
  intros y Hm. apply main_ok_shape in Hm. apply Hm.
Qed.

(** C6 (amended).  Once the clusterer has accepted the radius, a chunk size
    of zero makes [sort_events_by_cluster] raise a [ValueError] before any
    event is read, and a negative chunk size raises nothing: the loop body
    never runs and the all-zero preallocated array is returned. *)
Theorem nonpositive_chunk_size (x : ndarray F) (R : F) (b : Z)
  (jd : jet_definition) :
  JetDefinition R = Ok jd ->
  (b = 0%Z -> sort_events_by_cluster x R b = Raise ValueError) /\
  ((b < 0)%Z -> sort_events_by_cluster x R b = Ok (zeros_like x)).
Proof.
  intros Hjd. unfold sort_events_by_cluster. rewrite Hjd. cbn [bind].
  split.
  - intros ->. reflexivity.
  - intros Hb. unfold py_range.
    destruct (Z.eqb_spec b 0); [lia|].
    destruct (Z.ltb_spec 0 b); [lia|].
    destruct (Z.ltb_spec (Z.of_nat (n_events x)) 0); [lia|].
    reflexivity.
Qed.

(** C7.  For every array, every choice and any two positive chunk sizes the
    ordering stage returns the same result. *)
Theorem chunk_size_irrelevant (args : Args F) (x : ndarray F) (b1 b2 : Z) :
  wf x -> (0 < b1)%Z -> (0 < b2)%Z ->
  main (with_cluster_batch_size b1 args) x =
  main (with_cluster_batch_size b2 args) x.
Proof.
  intros Hwf Hb1 Hb2. unfold main, with_cluster_batch_size.
  cbn [sort_by cluster_R cluster_batch_size].
  destruct (sort_by args); try reflexivity.
  now rewrite !sort_events_by_cluster_spec.
Qed.

Lemma Forall2_nth_both {A B : Type} (P : A -> B -> Prop) (l1 : list A)
  (l2 : list B) (d1 : A) (d2 : B) :
  Forall2 P l1 l2 ->
  forall k, k < length l1 -> P (nth k l1 d1) (nth k l2 d2).
Proof.
  induction 1 as [|a b l1 l2 Hab Hl IH]; intros k Hk; simpl in *; [lia|].
  destruct k as [|k]; [assumption|]. apply IH. lia.
Qed.

(** C10.  For every positive chunk size and every event count, a multiple
    of the chunk size or not, the two loops visit the output slots
    [0 .. n_events-1] in order, each once, with the event of that slot, and
    every visit writes its slot: the function is the left-to-right map of
    the per-event write over the events.  So when it returns, output row
    [k] holds the reordered rows of event [k] for every [k], and when the
    write of some event raises, the function raises; no event is skipped or
    processed twice. *)
Theorem chunk_loop_covers_once (x : ndarray F) (R : F) (b : Z) :
  wf x -> (0 < b)%Z ->
  (exists visits,
     chunk_visits x b = Ok visits /\
     map fst visits = slots (n_events x) /\
     map snd visits = data x) /\
  sort_events_by_cluster x R b =
    (jet_def <- JetDefinition R ;;
     d <- mapM (event_write jet_def (n_particles x) (feat_dim x)) (data x) ;;
     Ok {| n_events := n_events x; n_particles := n_particles x;
           feat_dim := feat_dim x; data := d |}) /\
  (forall jd y,
     JetDefinition R = Ok jd -> sort_events_by_cluster x R b = Ok y ->
     length (data y) = n_events x /\
     forall k, k < n_events x ->
       event_write jd (n_particles x) (feat_dim x) (nth k (data x) []) =
       Ok (nth k (data y) [])) /\
  (forall jd event,
     JetDefinition R = Ok jd -> In event (data x) ->
     is_error (event_write jd (n_particles x) (feat_dim x) event) ->
     is_error (sort_events_by_cluster x R b)).
Proof.
  intros Hwf Hb. pose proof Hwf as [Hlen _].
  pose proof (sort_events_by_cluster_spec R Hwf Hb) as Hspec.
  split; [|split; [exact Hspec|split]].
  - eexists. split; [now apply chunk_visits_eq|].
    assert (length (slots (n_events x)) = length (data x)) as Hl.
    { unfold slots. now rewrite length_map, length_seq. }
    fold (slots (n_events x)). split.
    + clear -Hl. revert Hl. generalize (slots (n_events x)), (data x).
      induction l as [|a l IH]; intros [|c d] Hl; simpl in *; try discriminate;
        [reflexivity|]. f_equal. apply IH. lia.
    + clear -Hl. revert Hl. generalize (slots (n_events x)), (data x).
      induction l as [|a l IH]; intros [|c d] Hl; simpl in *; try discriminate;
        [reflexivity|]. f_equal. apply IH. lia.
  - intros jd y Hjd Hy. rewrite Hspec, Hjd in Hy. cbn [bind] in Hy.
    apply bind_ok_inv in Hy as (d & Hd & Hy). injection Hy as <-.
    cbn [data]. apply mapM_ok_Forall2 in Hd. split.
    + rewrite <- Hlen. symmetry. eapply Forall2_length; eauto.
    + intros k Hk. rewrite <- Hlen in Hk.
      exact (Forall2_nth_both [] [] Hd Hk).
  - intros jd event Hjd Hin He. rewrite Hspec, Hjd. cbn [bind].
    destruct (mapM_raise _ _ _ Hin He) as [e ->]. now exists e.
Qed.

(** *** Jet order *)

Lemma StronglySorted_filter {A : Type} (R : A -> A -> Prop) (f : A -> bool)
  (l : list A) :
  StronglySorted R l -> StronglySorted R (filter f l).
Proof.
  induction 1 as [|a l Hs IH Ha]; simpl; [constructor|].
  destruct (f a); [|assumption]. constructor; [assumption|].
  rewrite Forall_forall in *. intros b Hb. apply filter_In in Hb as [Hb _]. auto.
Qed.

Lemma slots_sorted (n : nat) : StronglySorted Z.lt (slots n).
Proof.
  unfold slots. apply StronglySorted_map.
  eapply StronglySorted_weaken; [|apply StronglySorted_seq].
  intros a b _ _ Hab. lia.
Qed.

(** C8 (amended).  The jets are taken in descending [perp] order; jets of
    equal [perp] keep the order in which the clusterer listed them (no
    tie-break on the first constituent's index); their constituents follow
    jet by jet, and the slots no jet mentioned are appended in ascending
    order. *)
Theorem jets_by_descending_perp (n : nat) (jets : list (Jet F)) :
  let sorted_jets := sorted_by perp true jets in
  Permutation sorted_jets jets /\
  StronglySorted (fun a b => fle (perp b) (perp a) = true) sorted_jets /\
  (forall k, filter (fun jet => feq (perp jet) k) sorted_jets =
             filter (fun jet => feq (perp jet) k) jets) /\
  exists remaining,
    assemble_indices n jets = jet_indices sorted_jets ++ remaining /\
    StronglySorted Z.lt remaining /\
    forall i, In i remaining <->
              In i (slots n) /\ ~ In i (jet_indices sorted_jets).
Proof.
  intros sorted_jets. split; [apply sorted_by_perm|].
  split; [apply sorted_by_reverse_sorted|].
  split; [intros k; apply sorted_by_reverse_filter|].
  exists (filter (not_in (jet_indices sorted_jets)) (slots n)).
  split; [reflexivity|]. split.
  - apply StronglySorted_filter, slots_sorted.
  - intros i. rewrite filter_In. split; intros [Hi Hn]; split; try assumption.
    + intros Hin. apply not_in_false in Hin. congruence.
    + destruct (not_in (jet_indices sorted_jets) i) eqn:E; [reflexivity|].
      apply not_in_false in E. contradiction.
Qed.

(** *** Rows are moved whole *)

Lemma reordered_event_wf (n fd : nat) (event : list (list F)) (p : list nat) :
  wf_event n fd event -> Permutation p (seq 0 n) ->
  wf_event n fd (map (fun k => nth k event []) p).
Proof.
  intros [Hn Hfd] Hp. split.
  - now rewrite length_map, (Permutation_length Hp), length_seq.
  - apply Forall_map, Forall_forall. intros k Hk.
    eapply Permutation_in in Hk; [|exact Hp]. apply in_seq in Hk.
    rewrite Forall_forall in Hfd. apply Hfd, nth_In. lia.
Qed.

Lemma sort_event_permuted (n fd : nat) (g : list F -> F) (event : list (list F)) :
  wf_event n fd event -> rows_permuted n event (sort_event g event).
Proof.
  intros [Hn _]. exists (argsort_desc (map g event)). split; [|reflexivity].
  rewrite <- Hn, <- (length_map g event). apply argsort_desc_perm.
Qed.

Lemma event_write_permuted (jd : jet_definition) (n fd : nat)
  (event rows : list (list F)) :
  wf_event n fd event -> event_write jd n fd event = Ok rows ->
  rows_permuted n event rows.
Proof.
  intros [Hn _] Hw.
  apply event_write_ok in Hw as (idxs & _ & Hp & ->); [|assumption].
  exists (map Z.to_nat idxs). split.
  - apply Permutation_sym.
    replace (seq 0 n) with (map Z.to_nat (slots n)).
    + now apply Permutation_map.
    + unfold slots. rewrite map_map. rewrite <- (map_id (seq 0 n)) at 2.
      apply map_ext. intros k. apply Nat2Z.id.
  - now rewrite map_map.
Qed.

Lemma permuted_array_wf (x : ndarray F) (d : list (list (list F))) :
  wf x -> Forall2 (rows_permuted (n_particles x)) (data x) d ->
  wf {| n_events := n_events x; n_particles := n_particles x;
        feat_dim := feat_dim x; data := d |}.
Proof.
  intros [Hlen Hev] Hd. split; cbn [data n_events n_particles feat_dim].
  - rewrite <- Hlen. symmetry. eapply Forall2_length; eauto.
  - clear Hlen. induction Hd as [|ev rows d0 d' (p & Hp & ->) Hd IH];
      constructor.
    + apply reordered_event_wf; [|assumption]. now apply Forall_inv in Hev.
    + apply IH. now apply Forall_inv_tail in Hev.
Qed.

Lemma main_ok_permuted (args : Args F) (x y : ndarray F) :
  wf x ->
  (sort_by args = by_cluster -> (0 < cluster_batch_size args)%Z) ->
  main args x = Ok y ->
  exists d, Forall2 (rows_permuted (n_particles x)) (data x) d /\
            y = {| n_events := n_events x; n_particles := n_particles x;
                   feat_dim := feat_dim x; data := d |}.
Proof.
  intros Hwf Hb Hm. pose proof Hwf as [_ Hev].
  destruct (sort_by_choice_eq_dec (sort_by args) by_cluster) as [Hc|Hc].
  - unfold main in Hm. rewrite Hc in Hm.
    rewrite sort_events_by_cluster_spec in Hm by auto.
    apply bind_ok_inv in Hm as (jd & _ & Hm).
    apply bind_ok_inv in Hm as (d & Hd & Hm). injection Hm as <-.
    exists d. split; [|reflexivity].
    apply mapM_ok_Forall2 in Hd.
    clear -Hd Hev. induction Hd as [|ev rows d0 d' Hw Hd IH]; constructor.
    + eapply event_write_permuted; [|exact Hw]. now apply Forall_inv in Hev.
    + apply IH. now apply Forall_inv_tail in Hev.
  - rewrite (main_scalar_spec args x Hc) in Hm.
    destruct (columns_read (sort_by args) <=? feat_dim x); [|discriminate].
    injection Hm as <-. eexists. split; [|reflexivity].
    clear -Hev. induction Hev as [|ev d Hw Hd IH]; simpl; constructor.
    + eapply sort_event_permuted; eauto.
    + assumption.
Qed.

Lemma main_total (args : Args F) (x : ndarray F) :
  wf x -> 3 <= feat_dim x ->
  (sort_by args = by_cluster ->
     (0 < cluster_batch_size args)%Z /\ clusterer_total (cluster_R args) x) ->
  exists y, main args x = Ok y.
Proof.
  intros Hwf Hfd Hcl.
  destruct (sort_by_choice_eq_dec (sort_by args) by_cluster) as [Hc|Hc].
  - destruct (Hcl Hc) as (Hb & jd & Hjd & Htot).
    unfold main. rewrite Hc, sort_events_by_cluster_spec by auto.
    rewrite Hjd. cbn [bind].
    assert (exists d, mapM (event_write jd (n_particles x) (feat_dim x)) (data x)
                      = Ok d) as (d & ->); [|cbn [bind]; eauto].
    destruct Hwf as [_ Hev]. revert Htot.
    induction Hev as [|ev d0 [Hn _] Hev IH]; intros Htot; [now exists []|].
    destruct (event_pseudojets_ok (n_particles x) ev Hfd) as (ps & Hps & _).
    destruct (Htot ev ps (or_introl eq_refl) Hps) as (jets & Hjets & Hpart).
    destruct (event_write_total jd ev Hn Hfd Hps Hjets Hpart) as (rows & Hrows).
    destruct IH as (d & Hd); [intros; eapply Htot; eauto; now right|].
    exists (rows :: d). cbn [mapM]. rewrite Hrows, Hd. reflexivity.
  - rewrite (main_scalar_spec args x Hc).
    destruct (Nat.leb_spec (columns_read (sort_by args)) (feat_dim x)); [eauto|].
    destruct (sort_by args); simpl in *; lia.
Qed.

Lemma zip_with_map_r {A B C : Type} (f : A -> B -> C) (h : A -> B) (l : list A) :
  zip_with f l (map h l) = map (fun a => f a (h a)) l.
Proof.
  unfold zip_with. induction l as [|a l IH]; simpl; [reflexivity|].
  now rewrite IH.
Qed.

(** C9 (amended).  Reordering only permutes whole particle rows, for the
    scalar choices and for the cluster choice with a positive chunk size:
    whenever the ordering stage returns an array [y], it has the shape of
    the input, and for every event and output position [k] the output row
    at [k] is the input row at the index the code computed there, unchanged
    in all its columns: the index is [sort_idx[e][k]] in a scalar branch and
    [sorted_indices[k]] in the cluster branch, and the indices of an event
    are a rearrangement of its slots.  The stage does return an array when
    every row has the three leading columns and, for the cluster choice, the
    clusterer honours its contract. *)
Theorem rows_carried_through (args : Args F) (x : ndarray F) :
  wf x ->
  (sort_by args = by_cluster -> (0 < cluster_batch_size args)%Z) ->
  (3 <= feat_dim x ->
   (sort_by args = by_cluster -> clusterer_total (cluster_R args) x) ->
   exists y, main args x = Ok y) /\
  (forall y, main args x = Ok y ->
     same_shape x y /\ wf y /\
     Forall2 (rows_permuted (n_particles x)) (data x) (data y) /\
     (forall key, sort_key (sort_by args) x = Some (Ok key) ->
        Forall (fun p => Permutation p (seq 0 (n_particles x))) (sort_idx key) /\
        data y = zip_with (fun event p => map (fun k => nth k event []) p)
                          (data x) (sort_idx key)) /\
     (forall jd, sort_by args = by_cluster ->
        JetDefinition (cluster_R args) = Ok jd ->
        Forall2 (fun event_in event_out =>
                   exists sorted_indices,
                     event_indices jd (n_particles x) (feat_dim x) event_in
                       = Ok sorted_indices /\
                     Permutation sorted_indices (slots (n_particles x)) /\
                     event_out = map (fun i => nth (Z.to_nat i) event_in [])
                                     sorted_indices)
                (data x) (data y))).
Proof.
  intros Hwf Hb. split.
  - intros Hfd Hcl. apply main_total; auto.
  - intros y Hm.
    destruct (main_ok_permuted args Hwf Hb Hm) as (d & Hd & Hy).
    split; [subst y; repeat split|].
    split; [subst y; now apply permuted_array_wf|].
    split; [subst y; assumption|]. split.
    + intros key Hk. apply sort_key_ok_inv in Hk as (Hc & _ & ->). split.
      * apply sort_idx_bijections. now apply rowwise_key_shape.
      * rewrite (main_scalar_spec args x Hc) in Hm.
        destruct (columns_read (sort_by args) <=? feat_dim x); [|discriminate].
        injection Hm as <-. cbn [data]. unfold sort_idx.
        rewrite map_map, zip_with_map_r. reflexivity.
    + intros jd Hc Hjd. unfold main in Hm. rewrite Hc in Hm.
      rewrite sort_events_by_cluster_spec in Hm by auto.
      rewrite Hjd in Hm. cbn [bind] in Hm.
      apply bind_ok_inv in Hm as (d' & Hd' & Hm). injection Hm as <-.
      cbn [data]. apply mapM_ok_Forall2 in Hd'.
      destruct Hwf as [_ Hev]. clear -Hd' Hev.
      induction Hd' as [|ev rows d0 d1 Hw Hd' IH]; constructor.
      * apply event_write_ok in Hw as (idxs & Hi & Hp & Hrows).
        -- exists idxs. split; [assumption|].
           split; [now apply Permutation_sym|assumption].
        -- apply Forall_inv in Hev. apply Hev.
      * apply IH. now apply Forall_inv_tail in Hev.
Qed.

End Claims.

Lemma permutation_is_bijection_witness :
  Forall (fun p => Permutation p (seq 0 3))
         (sort_idx (map (map (row_key by_kt)) (data three_events))) /\
  exists idxs,
    event_indices (fastjet := singleton_jets) 1%Z 3 4
      [[5; 1; 2; 10]; [2; 3; 1; 11]; [8; 2; 3; 12]]%Z = Ok idxs /\
    Permutation idxs (slots 3).
Proof.
  destruct (permutation_is_bijection (fastjet := singleton_jets) wf_three_events)
    as (_ & Hscalar & Hcluster & _).
  split.
  - apply (Hscalar by_kt). reflexivity.
  - apply (Hcluster 1%Z _ [[8; 2; 3; 12]; [5; 1; 2; 10]; [2; 3; 1; 11]]%Z).
    + simpl. auto.
    + reflexivity.
Defined.

Lemma scalar_sort_order_witness :
  Forall2 (fun keys p =>
             Permutation p (seq 0 (length keys)) /\
             StronglySorted
               (fun a b => fle (nth b keys 0%Z) (nth a keys 0%Z) = true) p)
          [[5; 2; 8]; [1; 4; 3]; [7; 6; 9]]%Z
          (sort_idx [[5; 2; 8]; [1; 4; 3]; [7; 6; 9]]%Z).
Proof.
  apply (@scalar_sort_order Z Z_float Z_float_order singleton_jets
           (sample_args by_pt 2) three_events).
  reflexivity.
Defined.

(** C2 as stated fails: two particles with the same pt come out in the
    order 1, 0, which is not "ties by slot index ascending", and the rows
    of the event are exchanged. *)
Lemma scalar_sort_ties_counterexample :
  sort_key by_pt tied_pair = Some (Ok [[1; 1]]%Z) /\
  main_sort_idx by_pt tied_pair = Some (Ok [[1; 0]]) /\
  main (fastjet := singleton_jets) (sample_args by_pt 2) tied_pair =
    Ok tied_pair_swapped /\
  ~ StronglySorted (desc_then [1; 1]%Z lt) [1; 0].
Proof.
  split; [reflexivity|]. split; [reflexivity|]. split; [reflexivity|].
  intros Hs. apply StronglySorted_inv in Hs as [_ Hs].
  apply Forall_inv in Hs. destruct Hs as [Hlt|[_ Hlt]].
  - discriminate.
  - lia.
Qed.

Lemma scalar_sort_idempotent_witness :
  main_sort_idx by_pt three_events_by_pt =
    Some (Ok [[0; 1; 2]; [0; 1; 2]; [0; 1; 2]]) /\
  main (fastjet := singleton_jets) (sample_args by_pt 2) three_events_by_pt =
    Ok three_events_by_pt.
Proof.
  refine (@scalar_sort_idempotent Z Z_float Z_float_order singleton_jets
            (sample_args by_pt 2) three_events three_events_by_pt _ _ _).
  - discriminate.
  - intros key Hk. injection Hk as <-.
    repeat constructor; intros i j Hi Hj Hne;
      destruct i as [|[|[|i]]], j as [|[|[|j]]]; simpl in *;
      solve [reflexivity | lia].
  - reflexivity.
Defined.

(** C3 as stated fails: an event with two equal keys is rearranged again
    by the second pass, whose index row is 1, 0 and not the identity. *)
Lemma scalar_sort_twice_counterexample :
  main (fastjet := singleton_jets) (sample_args by_pt 2) tied_pair =
    Ok tied_pair_swapped /\
  main_sort_idx by_pt tied_pair_swapped = Some (Ok [[1; 0]]) /\
  main_sort_idx by_pt tied_pair_swapped <> Some (Ok [seq 0 2]) /\
  main (fastjet := singleton_jets) (sample_args by_pt 2) tied_pair_swapped =
    Ok tied_pair.
Proof.
  repeat split. intros Heq. discriminate.
Qed.

Lemma duplicate_membership_raises_witness :
  is_error (sort_events_by_cluster (fastjet := doubling_jets) three_events 1%Z 2).
Proof.
  refine (proj2 (@duplicate_membership_raises Z Z_float doubling_jets
                   three_events 1%Z 2%Z 1%Z
                   [[5; 1; 2; 10]; [2; 3; 1; 11]; [8; 2; 3; 12]]%Z _ _
                   wf_three_events _ _ _ _ _ _)).
  - reflexivity.
  - reflexivity.
  - simpl. auto.
  - reflexivity.
  - reflexivity.
  - intros Hnd. apply NoDup_cons_iff in Hnd as [Hnin _].
    apply Hnin. simpl. auto.
Defined.

(** C5 as stated fails: three particles are declared, the array holds two
    per event, and the pt sort returns an array instead of raising. *)
Lemma shape_mismatch_counterexample :
  num_particles (sample_args by_pt 2) <> Z.of_nat (n_particles tied_pair) /\
  main (fastjet := singleton_jets) (sample_args by_pt 2) tied_pair =
    Ok tied_pair_swapped.
Proof. split; [discriminate|reflexivity]. Qed.

Lemma declared_num_particles_unused_witness :
  n_particles tied_pair_swapped = n_particles tied_pair.
Proof.
  apply (proj2 (@declared_num_particles_unused Z Z_float singleton_jets
                  (sample_args by_pt 2) tied_pair 7%Z)).
  reflexivity.
Defined.

Lemma nonpositive_chunk_size_witness :
  sort_events_by_cluster (fastjet := singleton_jets) three_events 1%Z 0 =
    Raise ValueError /\
  sort_events_by_cluster (fastjet := singleton_jets) three_events 1%Z (-2) =
    Ok (zeros_like three_events).
Proof.
  split.
  - apply (@nonpositive_chunk_size Z Z_float singleton_jets
             three_events 1%Z 0%Z 1%Z); reflexivity.
  - apply (@nonpositive_chunk_size Z Z_float singleton_jets
             three_events 1%Z (-2)%Z 1%Z); reflexivity.
Defined.

(** C6 as stated fails: with the cluster choice and chunk size -1 the run
    ends normally and hands on an all-zero array. *)
Lemma negative_chunk_size_counterexample :
  (cluster_batch_size (sample_args by_cluster (-1)) <= 0)%Z /\
  main (fastjet := singleton_jets) (sample_args by_cluster (-1)) three_events =
    Ok {| n_events := 3; n_particles := 3; feat_dim := 4;
          data := [[[0; 0; 0; 0]; [0; 0; 0; 0]; [0; 0; 0; 0]];
                   [[0; 0; 0; 0]; [0; 0; 0; 0]; [0; 0; 0; 0]];
                   [[0; 0; 0; 0]; [0; 0; 0; 0]; [0; 0; 0; 0]]]%Z |}.
Proof. split; [discriminate|reflexivity]. Qed.

Lemma chunk_size_irrelevant_witness :
  main (fastjet := singleton_jets) (sample_args by_cluster 1) three_events =
  main (fastjet := singleton_jets) (sample_args by_cluster 3) three_events.
Proof.
  apply (@chunk_size_irrelevant Z Z_float singleton_jets
           (sample_args by_cluster 2) three_events 1%Z 3%Z wf_three_events);
    reflexivity.
Defined.

Lemma jets_by_descending_perp_witness :
  StronglySorted (fun a b : Jet Z => fle (perp b) (perp a) = true)
                 (sorted_by perp true tied_jets) /\
  filter (fun jet => feq (perp jet) 1%Z) (sorted_by perp true tied_jets) =
  filter (fun jet => feq (perp jet) 1%Z) tied_jets.
Proof.
  destruct (jets_by_descending_perp (ord := Z_float_order) 2 tied_jets)
    as (_ & Hsorted & Hstable & _).
  split; [exact Hsorted|exact (Hstable 1%Z)].
Defined.

(** C8 as stated fails: of two jets with equal [perp] the one whose first
    constituent is slot 1 stays in front of the one whose first constituent
    is slot 0, and the assembled order is 1, 0. *)
Lemma jet_ties_counterexample :
  map perp tied_jets = [1; 1]%Z /\
  map first_index (sorted_by perp true tied_jets) = [1; 0]%Z /\
  assemble_indices 2 tied_jets = [1; 0]%Z /\
  ~ StronglySorted
      (fun a b : Jet Z =>
         flt (perp b) (perp a) = true \/
         (flt (perp a) (perp b) = false /\ (first_index a < first_index b)%Z))
      (sorted_by perp true tied_jets).
Proof.
  repeat split. intros Hs. apply StronglySorted_inv in Hs as [_ Hs].
  apply Forall_inv in Hs. destruct Hs as [Hlt|[_ Hlt]].
  - discriminate.
  - unfold first_index in Hlt. simpl in Hlt. lia.
Qed.

Lemma rows_carried_through_witness :
  Forall (fun p => Permutation p (seq 0 3))
         (sort_idx [[5; 2; 8]; [1; 4; 3]; [7; 6; 9]]%Z) /\
  data three_events_by_pt =
  zip_with (fun event p => map (fun k => nth k event []) p)
           (data three_events)
           (sort_idx [[5; 2; 8]; [1; 4; 3]; [7; 6; 9]]%Z).
Proof.
  refine (proj1 (proj2 (proj2 (proj2
            (proj2 (@rows_carried_through Z Z_float singleton_jets
                      (sample_args by_pt 2) three_events wf_three_events _)
                   three_events_by_pt _))))
            [[5; 2; 8]; [1; 4; 3]; [7; 6; 9]]%Z _).
  - discriminate.
  - reflexivity.
  - reflexivity.
Defined.

(** C9 as stated fails: with the cluster choice and chunk size -1 the
    stage returns an array whose rows are all zero; the first output row is
    not a row of the first event, so the output rows are not the input rows
    along any rearrangement. *)
Lemma rows_not_carried_counterexample :
  main (fastjet := singleton_jets) (sample_args by_cluster (-1)) three_events =
    Ok (zeros_like three_events) /\
  nth 0 (nth 0 (data (zeros_like three_events)) []) [] = [0; 0; 0; 0]%Z /\
  ~ In [0; 0; 0; 0]%Z (nth 0 (data three_events) []) /\
  ~ Forall2 (rows_permuted 3) (data three_events)
            (data (zeros_like three_events)).
Proof.
  split; [reflexivity|]. split; [reflexivity|]. split.
  - simpl. intros [H|[H|[H|[]]]]; discriminate.
  - intros Hf. inversion Hf as [|ev rows d d' (p & Hp & Hrows) _]; subst.
    destruct p as [|k p].
    + apply Permutation_nil in Hp. discriminate.
    + assert (In k (seq 0 3)) as Hk
        by (eapply Permutation_in; [exact Hp|now left]).
      simpl in Hrows. injection Hrows as Hrow _.
      simpl in Hk. destruct Hk as [<-|[<-|[<-|[]]]]; discriminate.
Qed.

Lemma chunk_loop_covers_once_witness :
  length (data three_events_by_pt) = n_events three_events /\
  forall k, k < n_events three_events ->
    event_write (fastjet := singleton_jets) 1%Z 3 4
      (nth k (data three_events) []) =
    Ok (nth k (data three_events_by_pt) []).
Proof.
  refine (proj1 (proj2 (proj2 (@chunk_loop_covers_once Z Z_float singleton_jets
            three_events 1%Z 2%Z wf_three_events eq_refl)))
            1%Z three_events_by_pt _ _).
  - reflexivity.
  - reflexivity.
Defined.

(** * Further properties of the ordering code *)

Lemma mapM_app {A B : Type} (f : A -> result B) (l1 l2 : list A) :
  mapM f (l1 ++ l2) =
  (bs1 <- mapM f l1 ;; bs2 <- mapM f l2 ;; Ok (bs1 ++ bs2)).
Proof.
  induction l1 as [|a l1 IH]; simpl.
  - destruct (mapM f l2); reflexivity.
  - destruct (f a); simpl; [|reflexivity]. rewrite IH.
    destruct (mapM f l1); simpl; [|reflexivity].
    destruct (mapM f l2); reflexivity.
Qed.

Lemma mapM_all_ok {A B : Type} (f : A -> result B) (l : list A) :
  (forall a, In a l -> exists b, f a = Ok b) -> exists bs, mapM f l = Ok bs.
Proof.
  induction l as [|a l IH]; simpl; intros Hf; [eauto|].
  destruct (Hf a (or_introl eq_refl)) as [b ->].
  destruct IH as [bs ->]; [intros; apply Hf; now right|].
  simpl. eauto.
Qed.

Lemma StronglySorted_map_inv {A B : Type} (R : B -> B -> Prop) (f : A -> B)
  (l : list A) :
  StronglySorted R (map f l) -> StronglySorted (fun a b => R (f a) (f b)) l.
Proof.
  induction l as [|a l IH]; simpl; intros Hs; constructor.
  - apply IH. now apply StronglySorted_inv in Hs.
  - apply StronglySorted_inv in Hs as [_ Ha].
    rewrite Forall_forall in *. intros b Hb. apply Ha, in_map, Hb.
Qed.

Section Coverage.
Context {F : Type} {ops : FloatOps F} {ord : FloatOrder (F := F)}
  {fastjet : FastJet F}.

(** ** Scalar branches of [main] *)

(** X1.  A scalar branch of [main] fails only for want of columns: it
    returns an array exactly when the array has the columns its key reads
    (one for pt, two for eta, three for phi, delta_R and kt), and raises
    [IndexError] otherwise; nothing else can go wrong in it. *)
Theorem scalar_branch_outcome (args : Args F) (x : ndarray F) :
  sort_by args <> by_cluster ->
  (columns_read (sort_by args) <= feat_dim x ->
     exists y, main args x = Ok y /\ same_shape x y /\
               length (data y) = length (data x)) /\
  (feat_dim x < columns_read (sort_by args) -> main args x = Raise IndexError).
Proof.
  intros Hc. rewrite (main_scalar_spec args x Hc).
  destruct (Nat.leb_spec (columns_read (sort_by args)) (feat_dim x)) as [Hle|Hlt];
    split; intros Hfd; try (exfalso; lia); [|reflexivity].
  eexists. split; [reflexivity|]. split; [repeat split|].
  cbn [data]. apply length_map.
Qed.

Lemma sort_event_descending (g : list F -> F) (event : list (list F)) :
  StronglySorted (fun r1 r2 => fle (g r2) (g r1) = true) (sort_event g event).
Proof.
  apply StronglySorted_map_inv
    with (R := fun a b : F => fle b a = true) (f := g).
  rewrite sort_event_keys. apply StronglySorted_map.
  eapply StronglySorted_weaken; [|apply argsort_desc_sorted].
  intros a b _ _ [Hlt|[Hnlt _]].
  - now apply flt_fle.
  - unfold fle. now rewrite Hnlt.
Qed.

Lemma sort_event_perm (g : list F -> F) (event : list (list F)) :
  Permutation (sort_event g event) event.
Proof.
  unfold sort_event.
  rewrite (Permutation_map _ (argsort_desc_perm (map g event))).
  rewrite length_map. now rewrite map_nth_seq.
Qed.

(** X2.  After a scalar branch the rows of every event are in descending
    order of the key: each row's key is at least the key of every row
    after it. *)
Theorem scalar_output_descending (args : Args F) (x y : ndarray F) :
  sort_by args <> by_cluster ->
  main args x = Ok y ->
  Forall (StronglySorted
            (fun r1 r2 => fle (row_key (sort_by args) r2)
                              (row_key (sort_by args) r1) = true))
         (data y).
Proof.
  intros Hc Hm. rewrite (main_scalar_spec args x Hc) in Hm.
  destruct (columns_read (sort_by args) <=? feat_dim x); [|discriminate].
  injection Hm as <-. cbn [data]. apply Forall_map, Forall_forall.
  intros ev _. apply sort_event_descending.
Qed.

(** Two arrangements of the same elements, one strictly and one weakly
    ordered by relations that exclude each other's converse, coincide. *)
Lemma sorted_arrangement_unique {A : Type} (R1 R2 : A -> A -> Prop)
  (l1 l2 : list A) :
  (forall a b, R1 a b -> R2 b a -> False) ->
  StronglySorted R1 l1 -> StronglySorted R2 l2 -> Permutation l1 l2 ->
  l1 = l2.
Proof.
  intros Hex H1; revert l2.
  induction H1 as [|a l1 H1 IH Ha]; intros l2 H2 Hp.
  - apply Permutation_nil in Hp. now subst.
  - destruct l2 as [|b l2].
    { apply Permutation_sym, Permutation_nil in Hp. discriminate. }
    apply StronglySorted_inv in H2 as [H2 Hb].
    rewrite Forall_forall in Ha, Hb.
    assert (a = b) as <-.
    { assert (In a (b :: l2)) as [Hba|Ha2]
        by (eapply Permutation_in; [exact Hp|now left]); [now symmetry|].
      assert (In b (a :: l1)) as [Hab|Hb1]
        by (eapply Permutation_in; [apply Permutation_sym; exact Hp|now left]);
        [assumption|].
      exfalso. exact (Hex a b (Ha b Hb1) (Hb a Ha2)). }
    f_equal. apply IH; [assumption|].
    eapply Permutation_cons_inv; exact Hp.
Qed.

Lemma sort_event_strictly_descending (g : list F -> F) (event : list (list F)) :
  distinct_keys (map g event) ->
  StronglySorted (fun r1 r2 => flt (g r2) (g r1) = true) (sort_event g event).
Proof.
  intros Hd.
  apply StronglySorted_map_inv
    with (R := fun a b : F => flt b a = true) (f := g).
  rewrite sort_event_keys. now apply sorted_keys_descending.
Qed.

Lemma sort_event_canonical (g : list F -> F) (event1 event2 : list (list F)) :
  Permutation event1 event2 -> distinct_keys (map g event1) ->
  sort_event g event1 = sort_event g event2.
Proof.
  intros Hp Hd.
  apply sorted_arrangement_unique
    with (R1 := fun r1 r2 => flt (g r2) (g r1) = true)
         (R2 := fun r1 r2 => fle (g r2) (g r1) = true).
  - intros a b Hlt Hle. unfold fle in Hle. rewrite Hlt in Hle. discriminate.
  - now apply sort_event_strictly_descending.
  - apply sort_event_descending.
  - rewrite !sort_event_perm. exact Hp.
Qed.

(** X4.  With pairwise distinct keys inside every event, the result of a
    scalar branch does not depend on the order in which the particles of an
    event were stored: two arrays whose events hold the same rows in
    different orders are sorted to the same array. *)
Theorem scalar_sort_canonical (args : Args F) (n fd : nat)
  (d1 d2 : list (list (list F))) :
  sort_by args <> by_cluster ->
  Forall2 (@Permutation (list F)) d1 d2 ->
  Forall (fun event => distinct_keys (map (row_key (sort_by args)) event)) d1 ->
  main args (array_of n fd d1) = main args (array_of n fd d2).
Proof.
  intros Hc Hp Hd. rewrite !(main_scalar_spec args _ Hc).
  unfold array_of. cbn [feat_dim data n_events n_particles].
  destruct (columns_read (sort_by args) <=? fd); [|reflexivity].
  rewrite (Forall2_length Hp). do 2 f_equal.
  induction Hp as [|ev1 ev2 d1 d2 Hev Hp IH]; [reflexivity|].
  simpl. f_equal.
  - apply sort_event_canonical; [assumption|]. now apply Forall_inv in Hd.
  - apply IH. now apply Forall_inv_tail in Hd.
Qed.

(** ** Whole arrays *)

(** X6.  An array without events passes through unchanged: a scalar branch
    returns it as it is when the array has the columns the key reads, and
    the cluster branch returns it for every non-zero chunk size once the
    clusterer has accepted the radius, whatever the number of columns. *)
Theorem empty_array_unchanged (args : Args F) (n fd : nat) :
  (sort_by args <> by_cluster -> columns_read (sort_by args) <= fd ->
     main args (array_of n fd []) = Ok (array_of n fd [])) /\
  (forall jd, sort_by args = by_cluster ->
     JetDefinition (cluster_R args) = Ok jd ->
     cluster_batch_size args <> 0%Z ->
     main args (array_of n fd []) = Ok (array_of n fd [])).
Proof.
  split.
  - intros Hc Hfd. rewrite (main_scalar_spec args _ Hc). cbn [array_of feat_dim].
    destruct (Nat.leb_spec (columns_read (sort_by args)) fd); [reflexivity|lia].
  - intros jd Hc Hjd Hb. unfold main. rewrite Hc.
    unfold sort_events_by_cluster. rewrite Hjd. cbn [bind].
    unfold py_range. cbn [array_of n_events Z.of_nat].
    destruct (Z.eqb_spec (cluster_batch_size args) 0); [contradiction|].
    destruct (0 <? cluster_batch_size args)%Z; reflexivity.
Qed.

(** X7.  Sorting commutes with stacking arrays along the event axis: when
    two arrays of the same event shape are each sorted successfully, sorting
    their concatenation gives the concatenation of the two results (for the
    cluster branch with a positive chunk size). *)
Theorem main_concat (args : Args F) (n fd : nat)
  (d1 d2 : list (list (list F))) (y1 y2 : ndarray F) :
  (sort_by args = by_cluster -> (0 < cluster_batch_size args)%Z) ->
  Forall (wf_event n fd) d1 -> Forall (wf_event n fd) d2 ->
  main args (array_of n fd d1) = Ok y1 ->
  main args (array_of n fd d2) = Ok y2 ->
  main args (array_of n fd (d1 ++ d2)) = Ok (array_of n fd (data y1 ++ data y2)).
Proof.
  intros Hb Hw1 Hw2 H1 H2.
  assert (forall d : list (list (list F)),
            Forall (wf_event n fd) d -> wf (array_of n fd d)) as Hwf
    by (intros d Hd; split; [reflexivity|exact Hd]).
  destruct (sort_by_choice_eq_dec (sort_by args) by_cluster) as [Hc|Hc].
  - unfold main in *. rewrite Hc in *. specialize (Hb eq_refl).
    rewrite sort_events_by_cluster_spec in H1, H2 |- *;
      auto using Forall_app, conj.
    + destruct (JetDefinition (cluster_R args)) as [jd|e]; [|discriminate].
      cbn [bind array_of data n_particles feat_dim n_events] in *.
      rewrite mapM_app.
      destruct (mapM _ d1) as [e1|] eqn:He1; [|discriminate].
      destruct (mapM _ d2) as [e2|] eqn:He2; [|discriminate].
      cbn [bind] in *. injection H1 as <-. injection H2 as <-.
      cbn [data]. apply mapM_ok_Forall2, Forall2_length in He1, He2.
      unfold array_of. now rewrite !length_app, He1, He2.
    + apply Hwf. apply Forall_app. auto.
  - rewrite (main_scalar_spec args _ Hc) in H1.
    rewrite (main_scalar_spec args _ Hc) in H2.
    rewrite (main_scalar_spec args _ Hc).
    cbn [array_of feat_dim data n_events n_particles] in *.
    destruct (columns_read (sort_by args) <=? fd); [|discriminate].
    injection H1 as <-. injection H2 as <-. cbn [data].
    unfold array_of. now rewrite map_app, !length_app, !length_map.
Qed.

(** ** One event of the cluster branch *)

Lemma fancy_index_only_IndexError (event : list (list F)) (idxs : list Z) (e : exn) :
  fancy_index event idxs = Raise e -> e = IndexError.
Proof.
  unfold fancy_index. induction idxs as [|i idxs IH]; simpl; [discriminate|].
  unfold norm_index at 1.
  destruct ((0 <=? _) && (_ <? _))%Z; cbn [bind]; [|congruence].
  unfold get_row at 1. destruct (nth_error event _); cbn [bind]; [|congruence].
  destruct (mapM _ idxs); cbn [bind]; [discriminate|].
  intros Heq. injection Heq as <-. now apply IH.
Qed.

Lemma fancy_index_in_range (event : list (list F)) (idxs : list Z) :
  (forall i, In i idxs ->
     (- Z.of_nat (length event) <= i < Z.of_nat (length event))%Z) ->
  exists rows, fancy_index event idxs = Ok rows.
Proof.
  intros Hr. apply mapM_all_ok. intros i Hi. specialize (Hr i Hi).
  unfold norm_index.
  assert (exists j, (if (i <? 0)%Z then (i + Z.of_nat (length event))%Z else i)
                    = Z.of_nat j /\ j < length event) as (j & -> & Hj).
  { destruct (Z.ltb_spec i 0).
    - exists (Z.to_nat (i + Z.of_nat (length event))). lia.
    - exists (Z.to_nat i). lia. }
  destruct (Z.leb_spec 0 (Z.of_nat j)); [|lia].
  destruct (Z.ltb_spec (Z.of_nat j) (Z.of_nat (length event))); [|lia].
  cbn [andb bind]. unfold get_row. rewrite Nat2Z.id.
  destruct (nth_error event j) eqn:Ej; [eauto|].
  apply nth_error_None in Ej. lia.
Qed.

Lemma norm_index_ok_inv (len : nat) (i : Z) (j : nat) :
  norm_index len i = Ok j -> (- Z.of_nat len <= i < Z.of_nat len)%Z.
Proof.
  unfold norm_index.
  destruct ((0 <=? (if (i <? 0)%Z then (i + Z.of_nat len)%Z else i)) &&
            ((if (i <? 0)%Z then (i + Z.of_nat len)%Z else i) <? Z.of_nat len))%Z
    eqn:Eb; [|discriminate].
  intros _. apply andb_true_iff in Eb as [Hlo Hhi].
  apply Z.leb_le in Hlo. apply Z.ltb_lt in Hhi.
  destruct (Z.ltb_spec i 0); lia.
Qed.

Lemma fancy_index_out_of_range (event : list (list F)) (idxs : list Z) (i : Z) :
  In i idxs ->
  ~ (- Z.of_nat (length event) <= i < Z.of_nat (length event))%Z ->
  fancy_index event idxs = Raise IndexError.
Proof.
  intros Hi Hbad.
  destruct (fancy_index event idxs) as [rows|e] eqn:Hf.
  - exfalso. apply mapM_ok_Forall2 in Hf.
    assert (exists r, (j <- norm_index (length event) i ;; get_row event j) = Ok r)
      as (r & Hr).
    { clear -Hf Hi. induction Hf as [|a r l rows Ha Hf IH]; [contradiction|].
      destruct Hi as [->|Hi]; eauto. }
    apply bind_ok_inv in Hr as (j & Hj & _).
    apply norm_index_ok_inv in Hj. contradiction.
  - f_equal. eapply fancy_index_only_IndexError; eauto.
Qed.

Lemma assemble_indices_good (n : nat) (jets : list (Jet F)) :
  NoDup (jet_indices jets) -> incl (jet_indices jets) (slots n) ->
  Permutation (slots n) (assemble_indices n jets).
Proof.
  intros Hnd Hin.
  pose proof (jet_indices_sorted_perm jets) as Hp.
  apply NoDup_Permutation.
  - apply slots_NoDup.
  - unfold assemble_indices. apply NoDup_app.
    + eapply Permutation_NoDup; [apply Permutation_sym; exact Hp|assumption].
    + apply NoDup_filter, slots_NoDup.
    + intros i Hi Hr. apply filter_In in Hr as [_ Hr].
      apply not_in_false in Hi. congruence.
  - intros i. split; [apply assemble_indices_incl|].
    unfold assemble_indices. intros Hi. apply in_app_or in Hi as [Hi|Hi].
    + apply Hin. eapply Permutation_in; [exact Hp|exact Hi].
    + now apply filter_In in Hi.
Qed.

Lemma event_write_unfold (jd : jet_definition) (n fd : nat)
  (event : list (list F)) (ps : list (PseudoJet F)) (jets : list (Jet F)) :
  event_pseudojets n fd event = Ok ps ->
  inclusive_jets ps jd = Ok jets ->
  event_write jd n fd event =
  (rows <- fancy_index event (assemble_indices n jets) ;;
   if length rows =? n then Ok rows
   else if length rows =? 1 then Ok (repeat (hd [] rows) n)
   else Raise ValueError).
Proof.
  intros Hps Hjets. unfold event_write, reorder_event, event_indices.
  rewrite Hps. cbn [bind]. rewrite Hjets. reflexivity.
Qed.

(** X8.  For one event, the assignment of line 132 goes through exactly
    when the jets returned by the clusterer mention every particle index at
    most once and mention only valid slots.  Jets may leave particles out
    (the left-over branch supplies them), but may not repeat or invent
    one. *)
Theorem event_write_succeeds_iff (jd : jet_definition) (n fd : nat)
  (event : list (list F)) (ps : list (PseudoJet F)) (jets : list (Jet F)) :
  length event = n ->
  event_pseudojets n fd event = Ok ps ->
  inclusive_jets ps jd = Ok jets ->
  (exists rows, event_write jd n fd event = Ok rows) <->
  NoDup (jet_indices jets) /\ incl (jet_indices jets) (slots n).
Proof.
  intros Hev Hps Hjets. split.
  - intros (rows & Hw).
    apply event_write_ok in Hw as (idxs & Hi & Hp & _); [|assumption].
    apply event_indices_inv in Hi as (ps' & jets' & Hps' & Hjets' & ->).
    assert (ps' = ps) as -> by congruence.
    assert (jets' = jets) as -> by congruence.
    pose proof (jet_indices_sorted_perm jets) as Hs.
    split.
    + eapply Permutation_NoDup; [exact Hs|].
      eapply NoDup_app_remove_r.
      eapply Permutation_NoDup; [exact Hp|apply slots_NoDup].
    + intros i Hi. eapply Permutation_in; [apply Permutation_sym; exact Hp|].
      unfold assemble_indices. apply in_or_app. left.
      eapply Permutation_in; [apply Permutation_sym; exact Hs|exact Hi].
  - intros [Hnd Hin].
    pose proof (@assemble_indices_good n jets Hnd Hin) as Hp.
    rewrite (@event_write_unfold jd n fd event ps jets Hps Hjets), fancy_index_slots.
    + cbn [bind]. rewrite length_map, <- (Permutation_length Hp).
      unfold slots. rewrite length_map, length_seq, Nat.eqb_refl. eauto.
    + rewrite Hev. intros i Hi.
      eapply Permutation_in; [apply Permutation_sym; exact Hp|exact Hi].
Qed.

(** X9.  When line 132 fails for an event, the exception tells why: an
    index outside [-n, n) among the jets' constituents gives an
    [IndexError] from the fancy indexing; otherwise (a repeated index, or a
    negative one that wraps round) the index list is too long and the
    assignment gives a [ValueError]. *)
Theorem event_write_error_kind (jd : jet_definition) (n fd : nat)
  (event : list (list F)) (ps : list (PseudoJet F)) (jets : list (Jet F)) :
  length event = n ->
  event_pseudojets n fd event = Ok ps ->
  inclusive_jets ps jd = Ok jets ->
  ((exists i, In i (jet_indices jets) /\
              ~ (- Z.of_nat n <= i < Z.of_nat n)%Z) ->
   event_write jd n fd event = Raise IndexError) /\
  ((forall i, In i (jet_indices jets) -> (- Z.of_nat n <= i < Z.of_nat n)%Z) ->
   ~ (NoDup (jet_indices jets) /\ incl (jet_indices jets) (slots n)) ->
   event_write jd n fd event = Raise ValueError).
Proof.
  intros Hev Hps Hjets.
  pose proof (jet_indices_sorted_perm jets) as Hs.
  rewrite (@event_write_unfold jd n fd event ps jets Hps Hjets). split.
  - intros (i & Hi & Hbad).
    rewrite (@fancy_index_out_of_range event (assemble_indices n jets) i).
    + reflexivity.
    + unfold assemble_indices. apply in_or_app. left.
      eapply Permutation_in; [apply Permutation_sym; exact Hs|exact Hi].
    + now rewrite Hev.
  - intros Hr Hbad.
    assert (forall i, In i (assemble_indices n jets) ->
                      (- Z.of_nat n <= i < Z.of_nat n)%Z) as Hr'.
    { unfold assemble_indices. intros i Hi. apply in_app_or in Hi as [Hi|Hi].
      - apply Hr. eapply Permutation_in; [exact Hs|exact Hi].
      - apply filter_In in Hi as [Hi _]. apply slots_in in Hi. lia. }
    destruct (@fancy_index_in_range event (assemble_indices n jets)) as (rows & Hf).
    { now rewrite Hev. }
    rewrite Hf. cbn [bind]. apply fancy_index_length in Hf. rewrite Hf.
    assert (length (assemble_indices n jets) <> n) as Hn.
    { intros Hlen. apply assemble_indices_perm in Hlen. apply Hbad. split.
      - eapply Permutation_NoDup; [exact Hs|]. eapply NoDup_app_remove_r.
        eapply Permutation_NoDup; [exact Hlen|apply slots_NoDup].
      - intros i Hi.
        eapply Permutation_in; [apply Permutation_sym; exact Hlen|].
        unfold assemble_indices. apply in_or_app. left.
        eapply Permutation_in; [apply Permutation_sym; exact Hs|exact Hi]. }
    destruct (Nat.eqb_spec (length (assemble_indices n jets)) n); [contradiction|].
    destruct (Nat.eqb_spec (length (assemble_indices n jets)) 1) as [H1|H1];
      [exfalso|reflexivity].
    pose proof (NoDup_incl_length (slots_NoDup n)
                  (assemble_indices_incl n jets)) as Hle.
    unfold slots in Hle. rewrite length_map, length_seq in Hle.
    assert (n = 0) as -> by lia.
    destruct (assemble_indices 0 jets) as [|i l]; [discriminate|].
    specialize (Hr' i (or_introl eq_refl)). simpl in Hr'. lia.
Qed.

Lemma event_pseudojets_slots (n fd : nat) (event : list (list F))
  (ps : list (PseudoJet F)) :
  event_pseudojets n fd event = Ok ps -> map user_index ps = slots n.
Proof.
  unfold event_pseudojets. intros Hps.
  apply bind_ok_inv in Hps as (pts & _ & Hps).
  apply bind_ok_inv in Hps as (etas & _ & Hps).
  apply bind_ok_inv in Hps as (phis & _ & Hps).
  injection Hps as <-. unfold build_pseudojets, slots. now rewrite map_map.
Qed.

Lemma map_flat_map {A B C : Type} (f : B -> C) (g : A -> list B) (l : list A) :
  map f (flat_map g l) = flat_map (fun a => map f (g a)) l.
Proof.
  induction l as [|a l IH]; simpl; [reflexivity|].
  now rewrite map_app, IH.
Qed.

(** X10.  When the clusterer honours its contract (every particle in
    exactly one jet) nothing is left over, and the output event is the jets
    laid end to end in descending [perp] order, each jet's particles side by
    side in the order the jet lists its constituents. *)
Theorem contract_output_follows_jets (jd : jet_definition) (n fd : nat)
  (event : list (list F)) (ps : list (PseudoJet F)) (jets : list (Jet F)) :
  length event = n ->
  event_pseudojets n fd event = Ok ps ->
  inclusive_jets ps jd = Ok jets ->
  partitions ps jets ->
  assemble_indices n jets = jet_indices (sorted_by perp true jets) /\
  event_write jd n fd event =
    Ok (flat_map
          (fun jet => map (fun p => nth (Z.to_nat (user_index p)) event [])
                          (constituents jet))
          (sorted_by perp true jets)).
Proof.
  intros Hev Hps Hjets Hpart.
  unfold partitions in Hpart. rewrite (event_pseudojets_slots _ _ _ Hps) in Hpart.
  fold (jet_indices jets) in Hpart.
  assert (Permutation (jet_indices (sorted_by perp true jets)) (slots n)) as Hp.
  { rewrite jet_indices_sorted_perm. exact Hpart. }
  assert (assemble_indices n jets = jet_indices (sorted_by perp true jets)) as Ha.
  { unfold assemble_indices.
    rewrite filter_none; [apply app_nil_r|].
    intros i Hi. apply not_in_false.
    eapply Permutation_in; [apply Permutation_sym; exact Hp|exact Hi]. }
  split; [assumption|].
  rewrite (@event_write_unfold jd n fd event ps jets Hps Hjets), Ha.
  rewrite fancy_index_slots.
  - cbn [bind]. rewrite length_map, (Permutation_length Hp).
    unfold slots at 1. rewrite length_map, length_seq, Nat.eqb_refl.
    f_equal. unfold jet_indices. rewrite map_flat_map.
    apply flat_map_ext. intros jet. now rewrite map_map.
  - rewrite Hev. intros i Hi. eapply Permutation_in; [exact Hp|exact Hi].
Qed.

(** X11.  An event for which the clusterer returns no constituents at all
    (no jets, or only empty ones) is copied to the output unchanged: the
    left-over branch puts every slot back in its original order. *)
Theorem no_jets_event_unchanged (jd : jet_definition) (n fd : nat)
  (event : list (list F)) (ps : list (PseudoJet F)) (jets : list (Jet F)) :
  length event = n ->
  event_pseudojets n fd event = Ok ps ->
  inclusive_jets ps jd = Ok jets ->
  jet_indices jets = [] ->
  event_write jd n fd event = Ok event.
Proof.
  intros Hev Hps Hjets Hnil.
  assert (assemble_indices n jets = slots n) as Ha.
  { unfold assemble_indices.
    assert (jet_indices (sorted_by perp true jets) = []) as ->.
    { pose proof (jet_indices_sorted_perm jets) as Hp. rewrite Hnil in Hp.
      now apply Permutation_sym, Permutation_nil in Hp. }
    cbn [app]. induction (slots n) as [|i l IH]; simpl; [reflexivity|].
    now rewrite IH. }
  rewrite (@event_write_unfold jd n fd event ps jets Hps Hjets), Ha.
  rewrite fancy_index_slots by (rewrite Hev; apply incl_refl).
  cbn [bind]. rewrite length_map. unfold slots.
  rewrite !length_map, length_seq, Nat.eqb_refl, map_map. f_equal.
  rewrite <- Hev. rewrite <- (map_nth_seq event []) at 2.
  apply map_ext. intros k. now rewrite Nat2Z.id.
Qed.

(** ** Errors of the whole cluster branch *)

(** X12.  [sort_events_by_cluster] stops at the first event, in array
    order, whose write fails, and ends with that event's exception: later
    events are never looked at and the chunk size plays no part. *)
Theorem first_failing_event_decides (x : ndarray F) (R : F) (b : Z)
  (jd : jet_definition) (before after : list (list (list F)))
  (event : list (list F)) (e : exn) :
  wf x -> (0 < b)%Z ->
  JetDefinition R = Ok jd ->
  data x = before ++ event :: after ->
  (forall ev, In ev before ->
     exists rows, event_write jd (n_particles x) (feat_dim x) ev = Ok rows) ->
  event_write jd (n_particles x) (feat_dim x) event = Raise e ->
  sort_events_by_cluster x R b = Raise e.
Proof.
  intros Hwf Hb Hjd Hd Hbefore He.
  rewrite sort_events_by_cluster_spec by assumption.
  rewrite Hjd. cbn [bind]. rewrite Hd, mapM_app.
  destruct (mapM_all_ok _ _ Hbefore) as (rows & ->).
  cbn [bind mapM]. now rewrite He.
Qed.

(** X13.  The cluster branch reads columns 0, 1 and 2 of every event: on an
    array with fewer than three columns and at least one event it raises
    [IndexError] at the first event, before the clusterer is given
    anything. *)
Theorem cluster_branch_needs_three_columns (x : ndarray F) (R : F) (b : Z)
  (jd : jet_definition) :
  wf x -> (0 < b)%Z ->
  JetDefinition R = Ok jd ->
  feat_dim x < 3 -> n_events x <> 0 ->
  sort_events_by_cluster x R b = Raise IndexError.
Proof.
  intros Hwf Hb Hjd Hfd Hne.
  rewrite sort_events_by_cluster_spec by assumption. rewrite Hjd. cbn [bind].
  destruct Hwf as [Hlen _].
  destruct (data x) as [|ev d]; [simpl in Hlen; congruence|].
  cbn [mapM].
  assert (event_write jd (n_particles x) (feat_dim x) ev = Raise IndexError) as ->;
    [|reflexivity].
  unfold event_write, reorder_event, event_indices, event_pseudojets, event_column.
  destruct (Nat.ltb_spec 0 (feat_dim x)); [|reflexivity].
  destruct (Nat.ltb_spec 1 (feat_dim x)); [|reflexivity].
  destruct (Nat.ltb_spec 2 (feat_dim x)); [lia|reflexivity].
Qed.

(** ** The batches of the chunk loop *)

Lemma py_range_count (n : nat) (b : Z) :
  (0 < b)%Z ->
  py_range 0 (Z.of_nat n) b =
  Ok (map (fun k => (0 + Z.of_nat k * b)%Z)
          (seq 0 (Z.to_nat ((Z.of_nat n + b - 1) / b)))).
Proof.
  intros Hb. unfold py_range.
  destruct (Z.eqb_spec b 0); [lia|].
  destruct (Z.ltb_spec 0 b); [|lia].
  destruct (Z.ltb_spec 0 (Z.of_nat n)) as [Hn|Hn].
  - do 3 f_equal.
    replace (Z.of_nat n + b - 1)%Z with (Z.of_nat n - 0 - 1 + 1 * b)%Z by lia.
    rewrite Z.div_add by lia. reflexivity.
  - replace (Z.of_nat n) with 0%Z by lia.
    rewrite Z.div_small by lia. reflexivity.
Qed.

Lemma py_slice_chunk {A : Type} (l : list A) (s bn : nat) :
  py_slice l (Z.of_nat s) (Z.min (Z.of_nat s + Z.of_nat bn) (Z.of_nat (length l))) =
  firstn bn (skipn s l).
Proof.
  unfold py_slice.
  assert (slice_bound (length l) (Z.of_nat s) = Nat.min s (length l)) as ->.
  { unfold slice_bound. destruct (Z.ltb_spec (Z.of_nat s) 0); [lia|].
    now rewrite Nat2Z.id. }
  assert (slice_bound (length l)
            (Z.min (Z.of_nat s + Z.of_nat bn) (Z.of_nat (length l))) =
          Nat.min (s + bn) (length l)) as ->.
  { unfold slice_bound.
    destruct (Z.ltb_spec (Z.min (Z.of_nat s + Z.of_nat bn) (Z.of_nat (length l))) 0);
      lia. }
  destruct (Nat.le_gt_cases s (length l)) as [Hs|Hs].
  - replace (Nat.min s (length l)) with s by lia.
    destruct (Nat.le_gt_cases (s + bn) (length l)).
    + f_equal. lia.
    + rewrite !firstn_all2; [reflexivity| |]; rewrite length_skipn; lia.
  - rewrite (skipn_all2 l) by lia. rewrite (skipn_all2 l) by lia.
    now rewrite !firstn_nil.
Qed.

Lemma concat_chunks {A : Type} (l : list A) (bn j : nat) :
  concat (map (fun k => firstn bn (skipn (k * bn) l)) (seq 0 j)) =
  firstn (j * bn) l.
Proof.
  induction j as [|j IH]; [reflexivity|].
  rewrite seq_S, map_app, concat_app, IH. cbn [map concat plus].
  rewrite app_nil_r, <- firstn_plus. f_equal. lia.
Qed.

(** X14.  For a positive chunk size the outer loop cuts the events into
    consecutive batches that together are the whole array: there are
    ceil(n_events / batch_size) of them, none is empty, none holds more
    than [batch_size] events, and all but the last hold exactly
    [batch_size]. *)
Theorem chunk_batches_bounded (x : ndarray F) (b : Z) :
  length (data x) = n_events x -> (0 < b)%Z ->
  exists batches,
    chunk_batches x b = Ok batches /\
    concat batches = data x /\
    Z.of_nat (length batches) = ((Z.of_nat (n_events x) + b - 1) / b)%Z /\
    Forall (fun batch => 1 <= length batch <= Z.to_nat b) batches /\
    Forall (fun batch => length batch = Z.to_nat b) (removelast batches).
Proof.
  intros Hlen Hb. unfold chunk_batches.
  rewrite py_range_count by assumption. cbn [bind].
  set (q := ((Z.of_nat (n_events x) + b - 1) / b)%Z).
  assert (0 <= q)%Z as Hq0 by (apply Z.div_pos; lia).
  pose proof (Z.mul_div_le (Z.of_nat (n_events x) + b - 1) b Hb) as Hq1.
  pose proof (Z.mul_succ_div_gt (Z.of_nat (n_events x) + b - 1) b Hb) as Hq2.
  fold q in Hq1, Hq2.
  assert (exists bn, b = Z.of_nat bn /\ 0 < bn) as (bn & -> & Hbn)
    by (exists (Z.to_nat b); lia).
  assert (exists j, q = Z.of_nat j) as (j & Hj) by (exists (Z.to_nat q); lia).
  rewrite Hj in *. rewrite !Nat2Z.id. rewrite <- Hlen in *.
  assert (length (data x) <= j * bn) as Hcover by nia.
  assert (forall k, k < j -> S k * bn <= length (data x) + bn - 1) as Hfull by nia.
  eexists. split; [reflexivity|].
  rewrite map_map.
  assert (map (fun k => py_slice (data x) (0 + Z.of_nat k * Z.of_nat bn)
                          (Z.min (0 + Z.of_nat k * Z.of_nat bn + Z.of_nat bn)
                                 (Z.of_nat (length (data x)))))
              (seq 0 j) =
          map (fun k => firstn bn (skipn (k * bn) (data x))) (seq 0 j)) as ->.
  { apply map_ext. intros k.
    replace (0 + Z.of_nat k * Z.of_nat bn)%Z with (Z.of_nat (k * bn)) by lia.
    apply py_slice_chunk. }
  split; [|split; [|split]].
  - rewrite concat_chunks. apply firstn_all2. lia.
  - now rewrite length_map, length_seq.
  - apply Forall_map, Forall_forall. intros k Hk. apply in_seq in Hk.
    rewrite length_firstn, length_skipn. specialize (Hfull k ltac:(lia)). nia.
  - destruct j as [|j]; [constructor|].
    rewrite seq_S, map_app. cbn [map plus]. rewrite removelast_last.
    apply Forall_map, Forall_forall. intros k Hk. apply in_seq in Hk.
    rewrite length_firstn, length_skipn.
    pose proof (Hfull (S k) ltac:(lia)). nia.
Qed.

End Coverage.

(** ** The paths of [main] *)

Module PathFacts.
Import Ascii String Paths.
#[local] Open Scope string_scope.

Lemma uint_digits (d : Decimal.uint) :
  all_int_chars (DecimalString.NilEmpty.string_of_uint d) = true.
Proof. induction d; simpl; auto. Qed.

Lemma str_int_chars (n : Z) :
  all_int_chars (str_int n) = true /\ str_int n <> "".
Proof.
  unfold str_int, DecimalString.NilZero.string_of_int,
    DecimalString.NilZero.string_of_uint.
  destruct n as [|p|p]; cbn [Z.to_int].
  - split; [reflexivity|discriminate].
  - pose proof (DecimalPos.Unsigned.to_uint_nonnil p) as Hnn.
    pose proof (uint_digits (Pos.to_uint p)) as Hd.
    destruct (Pos.to_uint p); try contradiction; (split; [exact Hd|discriminate]).
  - pose proof (DecimalPos.Unsigned.to_uint_nonnil p) as Hnn.
    pose proof (uint_digits (Pos.to_uint p)) as Hd.
    destruct (Pos.to_uint p); try contradiction;
      (split; [cbn [all_int_chars]; now rewrite Hd|discriminate]).
Qed.

Lemma str_int_inj (n1 n2 : Z) : str_int n1 = str_int n2 -> n1 = n2.
Proof.
  unfold str_int. intros Heq.
  assert (forall n, Z.to_int n <> Decimal.Pos Decimal.Nil /\
                    Z.to_int n <> Decimal.Neg Decimal.Nil) as Hnn.
  { intros [|p|p]; split; try discriminate; simpl; intros Hp;
      injection Hp as Hp; now apply DecimalPos.Unsigned.to_uint_nonnil in Hp. }
  apply (f_equal DecimalString.NilZero.int_of_string) in Heq.
  destruct (Hnn n1), (Hnn n2).
  rewrite !DecimalString.NilZero.isi in Heq by assumption.
  injection Heq as Heq. now apply DecimalZ.to_int_inj.
Qed.

Lemma append_assoc (a b c : string) : (a ++ b) ++ c = a ++ b ++ c.
Proof. induction a as [|x a IH]; simpl; [reflexivity|]. now rewrite IH. Qed.

Lemma append_inv_head (a x y : string) : a ++ x = a ++ y -> x = y.
Proof.
  induction a as [|c a IH]; simpl; intros Heq; [assumption|].
  injection Heq as Heq. auto.
Qed.

(** Two strings of integer characters followed by the same other character
    split in one way only. *)
Lemma split_at_mark (c : ascii) (s1 s2 t1 t2 : string) :
  is_int_char c = false ->
  all_int_chars s1 = true -> all_int_chars s2 = true ->
  s1 ++ String c t1 = s2 ++ String c t2 -> s1 = s2 /\ t1 = t2.
Proof.
  intros Hc. revert s2.
  induction s1 as [|a s1 IH]; intros [|b s2] H1 H2 Heq; simpl in *.
  - injection Heq as ->. auto.
  - injection Heq as -> _. apply andb_true_iff in H2 as [H2 _]. congruence.
  - injection Heq as -> _. apply andb_true_iff in H1 as [H1 _]. congruence.
  - injection Heq as -> Heq.
    apply andb_true_iff in H1 as [_ H1]. apply andb_true_iff in H2 as [_ H2].
    destruct (IH s2 H1 H2 Heq) as [-> ->]. auto.
Qed.

Lemma ends_with_sep_append (a b : string) :
  b <> "" -> ends_with_sep (a ++ b) = ends_with_sep b.
Proof.
  intros Hb. induction a as [|c a IH]; [reflexivity|].
  cbn [append ends_with_sep]. rewrite IH.
  destruct (a ++ b) eqn:Eab; [|reflexivity].
  destruct a; [simpl in Eab; contradiction|discriminate].
Qed.

Lemma int_chars_no_sep_end (s : string) :
  all_int_chars s = true -> ends_with_sep s = false.
Proof.
  induction s as [|c s IH]; [reflexivity|].
  cbn [all_int_chars ends_with_sep]. intros Hs.
  apply andb_true_iff in Hs as [Hc Hs].
  destruct s; [|auto].
  destruct (Ascii.eqb_spec c "/"); [subst; discriminate|reflexivity].
Qed.

Lemma int_chars_no_sep_start (s : string) :
  all_int_chars s = true -> starts_with_sep s = false.
Proof.
  destruct s as [|c s]; [reflexivity|]. cbn [all_int_chars starts_with_sep].
  intros Hs. apply andb_true_iff in Hs as [Hc _].
  destruct (Ascii.eqb_spec c "/"); [subst; discriminate|reflexivity].
Qed.

(** What [join_step] puts in front of a relative component. *)
Lemma join_step_relative (path b : string) :
  starts_with_sep b = false ->
  exists prefix, join_step path b = prefix ++ b /\
                 forall b', starts_with_sep b' = false ->
                            join_step path b' = prefix ++ b'.
Proof.
  intros Hb.
  exists (if String.eqb path "" || ends_with_sep path then path else path ++ "/").
  unfold join_step. split.
  - rewrite Hb. destruct (_ || _); [reflexivity|]. now rewrite append_assoc.
  - intros b' ->. destruct (_ || _); [reflexivity|]. now rewrite append_assoc.
Qed.

Lemma sort_by_name_inj (c1 c2 : sort_by_choice) :
  sort_by_name c1 = sort_by_name c2 -> c1 = c2.
Proof. destruct c1, c2; simpl; intros Heq; (reflexivity || discriminate). Qed.

(** X16.  The output directory of line 140 identifies the run's particle
    count and ordering: under one base directory, two runs get the same
    directory only if they have the same [--num_particles] and the same
    [--sort_by], so runs with different settings never write into each
    other's directory. *)
Theorem save_dir_injective (base : string) (n1 n2 : Z) (c1 c2 : sort_by_choice) :
  save_dir base n1 c1 = save_dir base n2 c2 -> n1 = n2 /\ c1 = c2.
Proof.
  unfold save_dir, path_join. cbn [fold_left].
  destruct (str_int_chars n1) as [Hd1 Hne1], (str_int_chars n2) as [Hd2 Hne2].
  destruct (join_step_relative base (str_int n1)
              (int_chars_no_sep_start _ Hd1)) as (prefix & -> & Hpre).
  rewrite (Hpre _ (int_chars_no_sep_start _ Hd2)).
  assert (forall n c, all_int_chars (str_int n) = true -> str_int n <> "" ->
            join_step (prefix ++ str_int n) (sort_by_name c) =
            prefix ++ str_int n ++ String "/" (sort_by_name c)) as Hstep.
  { intros n c Hd Hne. unfold join_step.
    assert (starts_with_sep (sort_by_name c) = false) as -> by now destruct c.
    rewrite ends_with_sep_append, int_chars_no_sep_end by assumption.
    assert (String.eqb (prefix ++ str_int n) "" = false) as ->.
    { destruct (String.eqb_spec (prefix ++ str_int n) "") as [He|]; [|reflexivity].
      destruct prefix; [simpl in He; contradiction|discriminate]. }
    cbn [orb]. now rewrite append_assoc. }
  rewrite !Hstep by assumption. intros Heq.
  apply append_inv_head in Heq.
  apply split_at_mark in Heq as [Hn Hc]; try assumption; [|reflexivity].
  split; [now apply str_int_inj|now apply sort_by_name_inj].
Qed.

(** X17.  The data files of lines 152-159 are named after the declared
    particle count alone: in one data directory, the array file and the
    label file of a run are always different files, and two runs read the
    same array file (or the same label file) only if they declare the same
    [--num_particles]. *)
Theorem data_paths_injective (data_dir : string) (n1 n2 : Z) :
  x_path data_dir n1 <> y_path data_dir n2 /\
  (x_path data_dir n1 = x_path data_dir n2 -> n1 = n2) /\
  (y_path data_dir n1 = y_path data_dir n2 -> n1 = n2).
Proof.
  unfold x_path, y_path, path_join. cbn [fold_left].
  destruct (str_int_chars n1) as [Hd1 _], (str_int_chars n2) as [Hd2 _].
  set (suffix := "onst_ptetaphi.npy").
  destruct (join_step_relative data_dir
              ("x_train_robust_" ++ str_int n1 ++ String "c" suffix) eq_refl)
    as (prefix & Hx & Hpre).
  change ("const_ptetaphi.npy") with (String "c" suffix).
  rewrite Hx, !Hpre by reflexivity.
  split; [|split]; intros Heq; apply append_inv_head in Heq.
  - discriminate.
  - apply (append_inv_head "x_train_robust_") in Heq.
    apply split_at_mark in Heq as [Hn _]; try assumption; [|reflexivity].
    now apply str_int_inj.
  - apply (append_inv_head "y_train_robust_") in Heq.
    apply split_at_mark in Heq as [Hn _]; try assumption; [|reflexivity].
    now apply str_int_inj.
Qed.

End PathFacts.

(** ** Instances of the further properties *)

Lemma scalar_branch_outcome_witness :
  (exists y, main (fastjet := singleton_jets) (sample_args by_eta 2) two_columns
             = Ok y /\ same_shape two_columns y /\
             length (data y) = length (data two_columns)) /\
  main (fastjet := singleton_jets) (sample_args by_phi 2) two_columns =
    Raise IndexError.
Proof.
  split.
  - apply (@scalar_branch_outcome Z Z_float singleton_jets
             (sample_args by_eta 2) two_columns); [discriminate|].
    simpl. lia.
  - apply (@scalar_branch_outcome Z Z_float singleton_jets
             (sample_args by_phi 2) two_columns); [discriminate|].
    simpl. lia.
Defined.

Lemma scalar_output_descending_witness :
  Forall (StronglySorted
            (fun r1 r2 : list Z => fle (row_key by_pt r2) (row_key by_pt r1) = true))
         (data three_events_by_pt).
Proof.
  apply (@scalar_output_descending Z Z_float Z_float_order singleton_jets
           (sample_args by_pt 2) three_events three_events_by_pt).
  - discriminate.
  - reflexivity.
Defined.

Lemma scalar_sort_canonical_witness :
  main (fastjet := singleton_jets) (sample_args by_pt 2)
       (array_of 3 4 [[[5; 1; 2; 10]; [2; 3; 1; 11]; [8; 2; 3; 12]]]%Z) =
  main (fastjet := singleton_jets) (sample_args by_pt 2)
       (array_of 3 4 [[[2; 3; 1; 11]; [5; 1; 2; 10]; [8; 2; 3; 12]]]%Z).
Proof.
  apply (@scalar_sort_canonical Z Z_float Z_float_order singleton_jets
           (sample_args by_pt 2) 3 4).
  - discriminate.
  - constructor; [apply perm_swap|constructor].
  - constructor; [|constructor].
    intros i j Hi Hj Hne.
    destruct i as [|[|[|i]]], j as [|[|[|j]]]; simpl in *;
      solve [reflexivity | lia].
Defined.

Lemma empty_array_unchanged_witness :
  main (fastjet := singleton_jets) (sample_args by_cluster 5) (array_of 3 0 []) =
  Ok (array_of 3 0 []).
Proof.
  apply (proj2 (@empty_array_unchanged Z Z_float singleton_jets
                  (sample_args by_cluster 5) 3 0) 1%Z).
  - reflexivity.
  - reflexivity.
  - discriminate.
Defined.

Lemma main_concat_witness :
  main (fastjet := singleton_jets) (sample_args by_cluster 2)
       (array_of 3 4 ([[[5; 1; 2; 10]; [2; 3; 1; 11]; [8; 2; 3; 12]];
                       [[1; 2; 3; 13]; [4; 1; 2; 14]; [3; 3; 1; 15]]] ++
                      [[[7; 3; 1; 16]; [6; 2; 3; 17]; [9; 1; 2; 18]]])%Z) =
  Ok (array_of 3 4 ([[[8; 2; 3; 12]; [5; 1; 2; 10]; [2; 3; 1; 11]];
                     [[4; 1; 2; 14]; [3; 3; 1; 15]; [1; 2; 3; 13]]] ++
                    [[[9; 1; 2; 18]; [7; 3; 1; 16]; [6; 2; 3; 17]]])%Z).
Proof.
  apply (@main_concat Z Z_float singleton_jets (sample_args by_cluster 2) 3 4
           [[[5; 1; 2; 10]; [2; 3; 1; 11]; [8; 2; 3; 12]];
            [[1; 2; 3; 13]; [4; 1; 2; 14]; [3; 3; 1; 15]]]%Z
           [[[7; 3; 1; 16]; [6; 2; 3; 17]; [9; 1; 2; 18]]]%Z
           (array_of 3 4 [[[8; 2; 3; 12]; [5; 1; 2; 10]; [2; 3; 1; 11]];
                          [[4; 1; 2; 14]; [3; 3; 1; 15]; [1; 2; 3; 13]]]%Z)
           (array_of 3 4 [[[9; 1; 2; 18]; [7; 3; 1; 16]; [6; 2; 3; 17]]]%Z)).
  - reflexivity.
  - repeat constructor.
  - repeat constructor.
  - reflexivity.
  - reflexivity.
Defined.

Lemma event_write_succeeds_iff_witness :
  exists rows,
    event_write (fastjet := singleton_jets) 1%Z 3 4
      [[5; 1; 2; 10]; [2; 3; 1; 11]; [8; 2; 3; 12]]%Z = Ok rows.
Proof.
  refine (proj2 (@event_write_succeeds_iff Z Z_float singleton_jets 1%Z 3 4
                   [[5; 1; 2; 10]; [2; 3; 1; 11]; [8; 2; 3; 12]]%Z _ _
                   eq_refl eq_refl eq_refl) _).
  split.
  - repeat (constructor; [simpl; intuition discriminate|]). constructor.
  - intros i Hi. exact Hi.
Defined.

Lemma event_write_error_kind_witness :
  event_write (fastjet := doubling_jets) 1%Z 3 4
    [[5; 1; 2; 10]; [2; 3; 1; 11]; [8; 2; 3; 12]]%Z = Raise ValueError.
Proof.
  refine (proj2 (@event_write_error_kind Z Z_float doubling_jets 1%Z 3 4
                   [[5; 1; 2; 10]; [2; 3; 1; 11]; [8; 2; 3; 12]]%Z _ _
                   eq_refl eq_refl eq_refl) _ _).
  - intros i Hi. simpl in Hi. intuition (subst; lia).
  - intros [Hnd _]. apply NoDup_cons_iff in Hnd as [Hnin _].
    apply Hnin. simpl. auto.
Defined.

Lemma contract_output_follows_jets_witness :
  event_write (fastjet := singleton_jets) 1%Z 3 4
    [[5; 1; 2; 10]; [2; 3; 1; 11]; [8; 2; 3; 12]]%Z =
  Ok [[8; 2; 3; 12]; [5; 1; 2; 10]; [2; 3; 1; 11]]%Z.
Proof.
  refine (proj2 (@contract_output_follows_jets Z Z_float singleton_jets 1%Z 3 4
                   [[5; 1; 2; 10]; [2; 3; 1; 11]; [8; 2; 3; 12]]%Z _ _
                   eq_refl eq_refl eq_refl _)).
  apply Permutation_refl.
Defined.

Lemma no_jets_event_unchanged_witness :
  event_write (fastjet := no_jets) 1%Z 3 4
    [[5; 1; 2; 10]; [2; 3; 1; 11]; [8; 2; 3; 12]]%Z =
  Ok [[5; 1; 2; 10]; [2; 3; 1; 11]; [8; 2; 3; 12]]%Z.
Proof.
  exact (@no_jets_event_unchanged Z Z_float no_jets 1%Z 3 4
           [[5; 1; 2; 10]; [2; 3; 1; 11]; [8; 2; 3; 12]]%Z _ _
           eq_refl eq_refl eq_refl eq_refl).
Defined.

Lemma first_failing_event_decides_witness :
  sort_events_by_cluster (fastjet := fussy_jets) three_events 1%Z 2 =
  Raise ValueError.
Proof.
  apply (@first_failing_event_decides Z Z_float fussy_jets three_events 1%Z 2%Z
           1%Z
           [[[5; 1; 2; 10]; [2; 3; 1; 11]; [8; 2; 3; 12]];
            [[1; 2; 3; 13]; [4; 1; 2; 14]; [3; 3; 1; 15]]]%Z
           []
           [[7; 3; 1; 16]; [6; 2; 3; 17]; [9; 1; 2; 18]]%Z
           ValueError wf_three_events).
  - reflexivity.
  - reflexivity.
  - reflexivity.
  - intros ev [<-|[<-|[]]]; eexists; reflexivity.
  - reflexivity.
Defined.

Lemma cluster_branch_needs_three_columns_witness :
  sort_events_by_cluster (fastjet := singleton_jets) two_columns 1%Z 4 =
  Raise IndexError.
Proof.
  apply (@cluster_branch_needs_three_columns Z Z_float singleton_jets
           two_columns 1%Z 4%Z 1%Z).
  - repeat constructor.
  - reflexivity.
  - reflexivity.
  - simpl. lia.
  - discriminate.
Defined.

Lemma chunk_batches_bounded_witness :
  exists batches,
    chunk_batches three_events 2 = Ok batches /\
    concat batches = data three_events /\
    Z.of_nat (length batches) = 2%Z /\
    Forall (fun batch => 1 <= length batch <= 2) batches /\
    Forall (fun batch => length batch = 2) (removelast batches).
Proof.
  exact (@chunk_batches_bounded Z three_events 2%Z eq_refl eq_refl).
Defined.

Lemma save_dir_injective_witness :
  16%Z = 16%Z /\ by_kt = by_kt.
Proof.
  apply (@PathFacts.save_dir_injective
           (String.String (Ascii.ascii_of_nat 111) String.EmptyString)
           16%Z 16%Z by_kt by_kt).
  reflexivity.
Defined.

Lemma data_paths_injective_witness :
  Paths.x_path String.EmptyString 8 <> Paths.y_path String.EmptyString 8.
Proof.
  exact (proj1 (@PathFacts.data_paths_injective String.EmptyString 8%Z 8%Z)).
Defined.
